(** * dmd.js: a dot-matrix display on a canvas, and its text printer

    Shallow embedding of [src/lib/dmd.js].  The display object keeps a flat
    array [data] of fill styles, a [dirty] flag and an array [dirtyIndicies]
    of flat indices; [painter] replays them on the 2D context.

    Modelling choices, all local to this file:
    - JavaScript numbers are modelled by [Z]: coordinates, sizes and indices
      are integers, as every caller in the source passes them;
    - a JavaScript array is a finite map from integer keys to values together
      with its [length]; a write past the end extends the array, a write at a
      negative key creates a property and leaves [length] alone;
    - the closure state of [DMD] is a record threaded through the operations;
      an operation returns a completion (normal or thrown) and the state at
      the point where it stopped;
    - the 2D context is modelled by the list of calls issued on it. *)

From Stdlib Require Import ZArith Lia Ascii String.
From stdpp Require Import gmap strings list pretty.

Local Open Scope Z_scope.

(** ** JavaScript values, completions and arrays *)

Module JS.

(** Primitive values that occur as colour channels and array elements. *)
Inductive prim : Type :=
| PUndef
| PNull
| PBool (b : bool)
| PNum (n : Z)
| PStr (s : string).

(** Values passed as the [color] argument: a primitive, an array of
    primitives, an object without a callable [join], or a function. *)
Inductive value : Type :=
| VPrim (p : prim)
| VArr (elems : list prim)
| VObj
| VFun.

Definition undefined : value := VPrim PUndef.
Definition null : value := VPrim PNull.
Definition str (s : string) : value := VPrim (PStr s).
Definition num (n : Z) : value := VPrim (PNum n).

Inductive type_tag : Type :=
| TUndefined | TObject | TBoolean | TNumber | TString | TFunction.

Global Instance type_tag_eq_dec : EqDecision type_tag.
Proof. solve_decision. Defined.

(** [typeof v]; note [typeof null === 'object']. *)
Definition typeof (v : value) : type_tag :=
  match v with
  | VPrim PUndef => TUndefined
  | VPrim PNull => TObject
  | VPrim (PBool _) => TBoolean
  | VPrim (PNum _) => TNumber
  | VPrim (PStr _) => TString
  | VArr _ => TObject
  | VObj => TObject
  | VFun => TFunction
  end.

(** Element conversion of [Array.prototype.join]: [undefined] and [null]
    become the empty string.  A number is printed as its decimal numeral,
    which is what [join] prints for the integers of magnitude below [2^53];
    beyond them a JavaScript number is rounded and, from [10^21] on, printed
    in exponent form, so statements about a printed channel bound it (see
    [safe_integer]). *)
Definition join_elem (p : prim) : string :=
  match p with
  | PUndef | PNull => EmptyString
  | PBool true => "true"
  | PBool false => "false"
  | PNum n => pretty n
  | PStr s => s
  end.

(** [a.join()] with the default separator. *)
Fixpoint join (l : list prim) : string :=
  match l with
  | [] => EmptyString
  | p :: l' =>
      match l' with
      | [] => join_elem p
      | _ :: _ => join_elem p +:+ "," +:+ join l'
      end
  end.

Inductive exn : Type := TypeError | RangeError.

Inductive completion (A : Type) : Type :=
| Normal (a : A)
| Throw (e : exn).
Global Arguments Normal {A} a.
Global Arguments Throw {A} e.

(** Arrays of fill styles.  [arr_props] holds every integer-keyed property,
    [arr_length] the [length] property. *)
Record array : Type := mkArray {
  arr_props : gmap Z string;
  arr_length : Z
}.

(** Keys that count as array indices (the others are plain properties). *)
Definition is_index (k : Z) : bool := (0 <=? k) && (k <? 2 ^ 32 - 1).

(** [new Array(n)]: [n] holes. *)
Definition new_array (n : Z) : completion array :=
  if (0 <=? n) && (n <? 2 ^ 32)
  then Normal (mkArray ∅ n)
  else Throw RangeError.

(** [a[k]]; [None] stands for [undefined]. *)
Definition get (a : array) (k : Z) : option string := arr_props a !! k.

(** [a[k] = v]. *)
Definition put (a : array) (k : Z) (v : string) : array :=
  mkArray (<[k := v]> (arr_props a))
          (if is_index k && (arr_length a <=? k) then k + 1 else arr_length a).

End JS.

Import JS.

(** ** The display object *)

Module Display.

(** The [config] argument; [None] is an absent option. *)
Record config : Type := mkConfig {
  cfg_dot_size : option Z;
  cfg_refresh : option Z;
  cfg_drawMode : option string;
  cfg_background : option string;
  cfg_off : option string
}.

Definition no_config : config := mkConfig None None None None None.

(** [v || d] on a number: absent and [0] are falsy. *)
Definition num_or (o : option Z) (d : Z) : Z :=
  match o with
  | Some v => if v =? 0 then d else v
  | None => d
  end.

(** [v || d] on a string: absent and the empty string are falsy. *)
Definition str_or (o : option string) (d : string) : string :=
  match o with
  | Some v => if decide (v = EmptyString) then d else v
  | None => d
  end.

(** Calls issued on the 2D context.  [Arc ox oy ds] stands for
    [arc(ox + ds / 2, oy + ds / 2, ds / 2.5, 0, 2 * Math.PI)], the disc
    of the cell whose pixel origin is [(ox, oy)]. *)
Inductive surface_op : Type :=
| SetFillStyle (style : option string)
| FillRect (x y w h : Z)
| BeginPath
| Arc (ox oy ds : Z)
| Fill.

(** The fields of [dmd] together with the closure variables [data],
    [dirty] and [dirtyIndicies]; [context] lists the calls made on
    [dmd.context], oldest first. *)
Record display : Type := mkDisplay {
  canvas_width : Z;
  canvas_height : Z;
  dot_size : Z;
  dot_width : Z;
  dot_height : Z;
  refresh : Z;
  drawMode : string;
  background : string;
  off : string;
  data : array;
  dirty : bool;
  dirtyIndicies : list Z;
  context : list surface_op
}.

Definition with_data (a : array) (d : display) : display :=
  mkDisplay (canvas_width d) (canvas_height d) (dot_size d) (dot_width d)
    (dot_height d) (refresh d) (drawMode d) (background d) (off d)
    a (dirty d) (dirtyIndicies d) (context d).

Definition with_dirty (b : bool) (d : display) : display :=
  mkDisplay (canvas_width d) (canvas_height d) (dot_size d) (dot_width d)
    (dot_height d) (refresh d) (drawMode d) (background d) (off d)
    (data d) b (dirtyIndicies d) (context d).

Definition with_dirtyIndicies (l : list Z) (d : display) : display :=
  mkDisplay (canvas_width d) (canvas_height d) (dot_size d) (dot_width d)
    (dot_height d) (refresh d) (drawMode d) (background d) (off d)
    (data d) (dirty d) l (context d).

Definition with_context (c : list surface_op) (d : display) : display :=
  mkDisplay (canvas_width d) (canvas_height d) (dot_size d) (dot_width d)
    (dot_height d) (refresh d) (drawMode d) (background d) (off d)
    (data d) (dirty d) (dirtyIndicies d) c.

(** Operations on the display: a completion and the state reached. *)
Definition M (A : Type) : Type := display → completion A * display.

Definition ret {A} (a : A) : M A := λ d, (Normal a, d).

Definition bind {A B} (m : M A) (k : A → M B) : M B :=
  λ d, match m d with
       | (Normal a, d') => k a d'
       | (Throw e, d') => (Throw e, d')
       end.

Global Instance M_ret : MRet M := @ret.
Global Instance M_bind : MBind M := λ A B k m, bind m k.

(** The flat index of the dot at column [x], row [y]. *)
Definition flat (d : display) (x y : Z) : Z := y * dot_width d + x.

(** The cell read back at a flat index. *)
Definition cell (d : display) (k : Z) : option string := get (data d) k.

(** *** [dmd.clear] *)

Definition clear (d : display) : display :=
  with_dirty true
    (with_data
       (foldl (λ a i, put a i (off d)) (data d)
              (seqZ 0 (arr_length (data d))))
       d).

(** *** [dmd.set] *)

(** The type dispatch at the head of [set]: [Normal (Some c)] is the fill
    style to store, [Normal None] the early [return], [Throw] the call of
    [color.join] on an object that has none. *)
Definition resolve_color (d : display) (color : value)
  : completion (option string) :=
  if decide (typeof color = TObject) then
    match color with
    | VArr l => Normal (Some ("rgb(" +:+ join l +:+ ")"))
    | _ => Throw TypeError
    end
  else if decide (typeof color = TUndefined) then
    Normal (Some (off d))
  else if decide (typeof color ≠ TString) then
    Normal None
  else
    match color with
    | VPrim (PStr s) => Normal (Some s)
    | _ => Normal None
    end.

Definition set (x y : Z) (color : value) : M unit :=
  λ d, match resolve_color d color with
       | Throw e => (Throw e, d)
       | Normal None => (Normal (), d)
       | Normal (Some c) =>
           (Normal (),
            with_dirtyIndicies (dirtyIndicies d ++ [flat d x y])
              (with_data (put (data d) (flat d x y) c) d))
       end.

(** *** [dmd.draw] *)

(** A row of a shape: an array of bits, or a number (rows given as numbers
    are skipped by [draw] and by [updateFontData]). *)
Inductive row : Type :=
| RowArr (bits : list Z)
| RowNum (n : Z).

(** The [options] argument of [draw]; [opt_fill] is the truthiness of
    [options.fill] (absent is [false]). *)
Record options : Type := mkOptions {
  opt_color : value;
  opt_fill : bool
}.

(** The inner loop over [j], entered with [paintingX = x + j] in [px]. *)
Fixpoint draw_row (px py : Z) (bits : list Z) (color : value)
    (forceFill hasPrinted : bool) : M bool :=
  match bits with
  | [] => ret hasPrinted
  | b :: bits' =>
      λ d,
        if (0 <=? px) && (px <? dot_width d) then
          let show := b =? 1 in
          if show || forceFill then
            (set px py (if show then color else undefined) ;;
             draw_row (px + 1) py bits' color forceFill true) d
          else draw_row (px + 1) py bits' color forceFill hasPrinted d
        else draw_row (px + 1) py bits' color forceFill hasPrinted d
  end.

(** The outer loop over [i], entered with [paintingY = y + i] in [py]. *)
Fixpoint draw_rows (x py : Z) (shape : list row) (color : value)
    (forceFill hasPrinted : bool) : M bool :=
  match shape with
  | [] => ret hasPrinted
  | r :: shape' =>
      λ d,
        if (0 <=? py) && (py <? dot_height d) then
          match r with
          | RowArr bits =>
              (hp ← draw_row x py bits color forceFill hasPrinted;
               draw_rows x (py + 1) shape' color forceFill hp) d
          | RowNum _ =>
              draw_rows x (py + 1) shape' color forceFill hasPrinted d
          end
        else draw_rows x (py + 1) shape' color forceFill hasPrinted d
  end.

Definition draw (x y : Z) (shape : list row) (o : options) : M bool :=
  draw_rows x y shape (opt_color o) (opt_fill o) false.

(** *** [dmd.fill] and [dmd.rect] *)

(** A counting loop [for (var j = a; j < a + n; j++) body(j)], given the
    values [seqZ a n] that [j] takes. *)
Fixpoint for_each (js : list Z) (body : Z → M unit) : M unit :=
  match js with
  | [] => ret ()
  | j :: js' => body j ;; for_each js' body
  end.

Definition fill (x y w h : Z) (color : value) : M unit :=
  for_each (seqZ x w) (λ i,
    for_each (seqZ y h) (λ j, set i j color)).

Definition rect (x y w h : Z) (color : value) : M unit :=
  for_each (seqZ x w) (λ i,
    for_each (seqZ y h) (λ j,
      if (j =? y) || (j =? y + h - 1) || (i =? x) || (i =? x + w - 1)
      then set i j color
      else ret ())).

(** *** [painter] *)

Definition emit (ops : list surface_op) (d : display) : display :=
  with_context (context d ++ ops) d.

(** [updateLed(i, flush)].  Column [i % dot_width], row
    [Math.floor(i / dot_width)]. *)
Definition updateLed (drawCircles : bool) (i : Z) (flush : bool)
    (d : display) : display :=
  let ox := Z.rem i (dot_width d) * dot_size d in
  let oy := (i / dot_width d) * dot_size d in
  let led := cell d i in
  let d1 :=
    if flush
    then emit [SetFillStyle (Some (background d));
               FillRect ox oy (dot_size d) (dot_size d)] d
    else d in
  let d2 := emit [SetFillStyle led] d1 in
  if drawCircles
  then emit [BeginPath; Arc ox oy (dot_size d); Fill] d2
  else emit [FillRect ox oy (dot_size d) (dot_size d)] d2.

Definition painter (d : display) : display :=
  if negb (dirty d) && (Z.of_nat (length (dirtyIndicies d)) =? 0) then d
  else
    let d1 :=
      if dirty d
      then emit [SetFillStyle (Some (background d));
                 FillRect 0 0 (canvas_width d) (canvas_height d)] d
      else d in
    let drawCircles := bool_decide (drawMode d1 = "circle") in
    if dirty d1 then
      with_dirty false
        (foldl (λ s i, updateLed drawCircles i false s) d1
               (seqZ 0 (arr_length (data d1))))
    else
      with_dirtyIndicies []
        (foldl (λ s index, updateLed drawCircles index true s) d1
               (dirtyIndicies d1)).

(** *** The constructor [DMD(canvas, config)]

    [cw] and [ch] are [canvas.width] and [canvas.height]; the timer that
    calls [painter] every [refresh] milliseconds is not part of the state. *)

Definition DMD (cw ch : Z) (cfg : config) : completion display :=
  let ds := num_or (cfg_dot_size cfg) 20 in
  let w := cw / ds in
  let h := ch / ds in
  match new_array (w * h) with
  | Throw e => Throw e
  | Normal a =>
      Normal (clear
        (mkDisplay cw ch ds w h
           (num_or (cfg_refresh cfg) 50)
           (str_or (cfg_drawMode cfg) "circle")
           (str_or (cfg_background cfg) "rgb(60,60,60)")
           (str_or (cfg_off cfg) "rgb(50,50,50)")
           a true [] []))
  end.

End Display.

Import Display.

(** ** The text printer *)

Module DMDTextPrinter.

(** A character's bitmap: the array of rows and its [width] property
    ([None] when the property is absent). *)
Record glyph : Type := mkGlyph {
  rows : list row;
  width : option Z
}.

(** A font object: its properties keyed by name, and its [length] property
    when it has a numeric one (an array of glyphs has, an object keyed by
    characters has not).  Glyphs are held by value: a glyph reachable
    under two keys is two entries. *)
Record font : Type := mkFont {
  font_length : option Z;
  font_glyphs : gmap string glyph
}.

(** [!characterFont.width]: absent and [0] are falsy. *)
Definition lacks_width (g : glyph) : bool :=
  match width g with
  | None => true
  | Some w => w =? 0
  end.

(** The value read from [characterFont.width] in arithmetic once the
    property is set. *)
Definition width_of (g : glyph) : Z := default 0 (width g).

Definition updateFontData (characterFont : glyph) : glyph :=
  mkGlyph (rows characterFont)
    (Some (foldl (λ width r,
                    match r with
                    | RowArr bits => Z.max width (Z.of_nat (length bits))
                    | RowNum _ => width
                    end) 0 (rows characterFont))).

(** The body of [updateFont]'s loop over [i]; [font[i]] is the property
    named by the decimal numeral of [i], and reading [.width] off a missing
    entry throws. *)
Fixpoint updateFont_loop (indices : list Z) (glyphs : gmap string glyph)
  : completion () * gmap string glyph :=
  match indices with
  | [] => (Normal (), glyphs)
  | i :: indices' =>
      match glyphs !! pretty i with
      | None => (Throw TypeError, glyphs)
      | Some characterFont =>
          updateFont_loop indices'
            (if lacks_width characterFont
             then <[pretty i := updateFontData characterFont]> glyphs
             else glyphs)
      end
  end.

(** [updateFont(font)]: [i < font.length] is false at once when [length]
    is [undefined]. *)
Definition updateFont (f : font) : completion () * font :=
  match font_length f with
  | None => (Normal (), f)
  | Some n =>
      let '(r, glyphs) := updateFont_loop (seqZ 0 n) (font_glyphs f) in
      (r, mkFont (font_length f) glyphs)
  end.

(** The [options] argument of [print] without its [font], which is
    threaded as state because [print] caches widths in it. *)
Definition print_options : Type := options.

(** One iteration of [print]'s loop, as recorded in its journal:
    [Skipped c x] is the line ["Skipping character " + c] written to the
    console with the cursor at [x]; [Drawn c x w visible] records the call
    [dmd.draw(x, y, font[c], ...)], the glyph width [w] then added to the
    cursor, and what [draw] returned. *)
Inductive step : Type :=
| Skipped (c : ascii) (x : Z)
| Drawn (c : ascii) (x : Z) (w : Z) (visible : bool).

(** What a call of [print] leaves behind: the font with the widths it
    cached, the journal of its iterations (oldest first) and the
    display. *)
Record world : Type := mkWorld {
  w_font : font;
  w_journal : list step;
  w_display : display
}.

Definition key (c : ascii) : string := String c EmptyString.

(** The loop of [print], entered with the characters still to read. *)
Fixpoint print_loop (y : Z) (text : string) (o : print_options)
    (currentX printed : Z) (w : world) : completion Z * world :=
  match text with
  | EmptyString => (Normal printed, w)
  | String c text' =>
      if currentX <=? dot_width (w_display w) then
        match font_glyphs (w_font w) !! key c with
        | None =>
            print_loop y text' o currentX printed
              (mkWorld (w_font w) (w_journal w ++ [Skipped c currentX])
                       (w_display w))
        | Some g =>
            let characterFont :=
              if lacks_width g then updateFontData g else g in
            let f' :=
              if lacks_width g
              then mkFont (font_length (w_font w))
                     (<[key c := characterFont]> (font_glyphs (w_font w)))
              else w_font w in
            match draw currentX y (rows characterFont) o (w_display w) with
            | (Throw e, d') => (Throw e, mkWorld f' (w_journal w) d')
            | (Normal visible, d') =>
                print_loop y text' o
                  (currentX + (width_of characterFont + 1))
                  (if visible then printed + 1 else printed)
                  (mkWorld f'
                     (w_journal w ++
                        [Drawn c currentX (width_of characterFont) visible])
                     d')
            end
        end
      else (Normal printed, w)
  end.

(** [print(x, y, text, {font, color, fill})] on display [d]. *)
Definition print (x y : Z) (text : string) (f : font) (o : print_options)
    (d : display) : completion bool * world :=
  match print_loop y text o x 0 (mkWorld f [] d) with
  | (Normal printed, w') => (Normal (0 <? printed), w')
  | (Throw e, w') => (Throw e, w')
  end.

End DMDTextPrinter.

Import DMDTextPrinter.

(** ** Vocabulary of the specification *)

(** The 4 by 4 display of the examples: a 4 by 4 pixel canvas with
    [dot_size = 1] and every other option left to its default. *)
Definition grid4 : display :=
  clear (mkDisplay 4 4 1 4 4 50 "circle" "rgb(60,60,60)" "rgb(50,50,50)"
           (mkArray ∅ 16) true [] []).

(** [(x, y)] names a dot of the grid. *)
Definition in_bounds (d : display) (x y : Z) : Prop :=
  0 ≤ x < dot_width d ∧ 0 ≤ y < dot_height d.

(** The integers that a JavaScript number holds exactly and prints digit
    for digit. *)
Definition safe_integer (n : Z) : Prop := - 2 ^ 53 < n < 2 ^ 53.

(** A valid colour argument and the fill style it stands for: a string
    stands for itself, a triple of integer channels for ['rgb(r,g,b)'], an
    omitted argument for the off colour. *)
Inductive resolves_to (d : display) : value → string → Prop :=
| resolves_string (s : string) :
    resolves_to d (str s) s
| resolves_triple (r g b : Z) :
    safe_integer r → safe_integer g → safe_integer b →
    resolves_to d (VArr [PNum r; PNum g; PNum b])
      ("rgb(" +:+ pretty r +:+ "," +:+ pretty g +:+ "," +:+ pretty b +:+ ")")
| resolves_omitted :
    resolves_to d undefined (off d).

Definition is_string (c : value) : Prop := ∃ s, c = str s.

Definition is_channel_triple (c : value) : Prop :=
  ∃ r g b, c = VArr [PNum r; PNum g; PNum b].

(** The bit of a shape at row [i], column [j]. *)
Definition bit_at (shape : list row) (i j : nat) : option Z :=
  match shape !! i with
  | Some (RowArr bits) => bits !! j
  | _ => None
  end.

(** [extends d d' added]: [d'] is [d] after writes at the indices [added], in
    that order: they were pushed on [dirtyIndicies], the geometry and the off
    colour are those of [d], and every other entry of [data] is as in [d]. *)
Record extends (d d' : display) (added : list Z) : Prop := mkExtends {
  ext_indices : dirtyIndicies d' = dirtyIndicies d ++ added;
  ext_width : dot_width d' = dot_width d;
  ext_height : dot_height d' = dot_height d;
  ext_off : off d' = off d;
  ext_frame : ∀ k, k ∉ added → cell d' k = cell d k
}.

(** A write of [draw]: at a dot of the grid, under the bit of the shape
    at row [i], column [j], where that bit is lit or [forceFill] is set. *)
Definition footprint_write (d : display) (x y : Z) (shape : list row)
    (forceFill : bool) (k : Z) : Prop :=
  ∃ (i j : nat) b,
    bit_at shape i j = Some b ∧
    in_bounds d (x + Z.of_nat j) (y + Z.of_nat i) ∧
    k = (y + Z.of_nat i) * dot_width d + (x + Z.of_nat j) ∧
    (b = 1 ∨ forceFill = true).

(** Some lit bit of the shape lies over a dot of the grid. *)
Definition lit_plotted (d : display) (x y : Z) (shape : list row) : Prop :=
  ∃ (i j : nat),
    bit_at shape i j = Some 1 ∧ in_bounds d (x + Z.of_nat j) (y + Z.of_nat i).

(** Some bit of the shape lies over a dot of the grid and is handed to
    [set]: it is lit, or [fill] is set. *)
Definition plotted (d : display) (x y : Z) (shape : list row) (fill : bool)
  : Prop :=
  ∃ (i j : nat) b,
    bit_at shape i j = Some b ∧
    in_bounds d (x + Z.of_nat j) (y + Z.of_nat i) ∧
    (b = 1 ∨ fill = true).

(** The colours on which [set] throws: [null] and objects without [join]. *)
Definition unjoinable (c : value) : bool :=
  match c with
  | VPrim PNull | VObj => true
  | _ => false
  end.

(** Some bit accepted by [P] sits at a column of the grid, the row starting
    at column [px]. *)
Fixpoint row_any (P : Z → bool) (w px : Z) (bits : list Z) : bool :=
  match bits with
  | [] => false
  | b :: bits' =>
      ((0 <=? px) && (px <? w) && P b) || row_any P w (px + 1) bits'
  end.

(** The same over the rows of a shape, the shape starting at row [py]. *)
Fixpoint shape_any (P : Z → bool) (w h x py : Z) (shape : list row) : bool :=
  match shape with
  | [] => false
  | r :: shape' =>
      ((0 <=? py) && (py <? h) &&
       match r with RowArr bits => row_any P w x bits | RowNum _ => false end)
      || shape_any P w h x (py + 1) shape'
  end.

(** The font of the examples: [{'A': [[0,1,0],[1,1,1]]}]. *)
Definition glyph_A : glyph := mkGlyph [RowArr [0; 1; 0]; RowArr [1; 1; 1]] None.

Definition font_A : font := mkFont None {["A" := glyph_A]}.

(** The maximum row length of a bitmap, rows given as numbers apart. *)
Definition max_row_length (rs : list row) : Z :=
  foldr (λ r m, match r with
                | RowArr bits => Z.max (Z.of_nat (length bits)) m
                | RowNum _ => m
                end) 0 rs.

(** The width of a glyph as [print] uses it: the cached one, or the maximum
    row length when none is cached. *)
Definition glyph_width (g : glyph) : Z :=
  if lacks_width g then max_row_length (rows g) else width_of g.

(** A glyph once its width has been asked for: [updateFontData] is applied
    to a glyph that lacks one. *)
Definition with_width (g : glyph) : glyph :=
  if lacks_width g then updateFontData g else g.

(** The characters of a string, in order. *)
Fixpoint chars (s : string) : list ascii :=
  match s with
  | EmptyString => []
  | String c s' => c :: chars s'
  end.

Definition step_char (s : step) : ascii :=
  match s with
  | Skipped c _ => c
  | Drawn c _ _ _ => c
  end.

(** A journal that obeys the cursor rule from column [x] on, for the font
    [glyphs] handed to [print]: a skipped character has no glyph and leaves
    the cursor where it is; a drawn character has a glyph, is drawn at the
    cursor, and moves the cursor by the glyph's width plus one, whatever
    [draw] returned. *)
Fixpoint follows (glyphs : gmap string glyph) (x : Z) (steps : list step)
  : Prop :=
  match steps with
  | [] => True
  | Skipped c at_x :: steps' =>
      at_x = x ∧ glyphs !! key c = None ∧ follows glyphs x steps'
  | Drawn c at_x w _ :: steps' =>
      at_x = x ∧
      (∃ g, glyphs !! key c = Some g ∧ w = glyph_width g) ∧
      follows glyphs (x + (w + 1)) steps'
  end.

(** [replays glyphs y o x d steps x' d']: the journal [steps] is what the
    loop of [print] does from column [x] on the display [d], and it ends
    with the cursor at [x'] on the display [d'].  Every step is taken with
    the cursor at a column no greater than [dot_width].  A skipped character
    has no glyph in the font and leaves cursor and display alone.  A drawn
    character has a glyph; [draw] is called with it at the cursor, the flag
    of the step is what that call returned, the display is the one that call
    left, and the cursor moves by the glyph's width plus one. *)
Fixpoint replays (glyphs : gmap string glyph) (y : Z) (o : options) (x : Z)
    (d : display) (steps : list step) (x' : Z) (d' : display) : Prop :=
  match steps with
  | [] => x' = x ∧ d' = d
  | Skipped c at_x :: steps' =>
      at_x = x ∧ x ≤ dot_width d ∧
      glyphs !! key c = None ∧
      replays glyphs y o x d steps' x' d'
  | Drawn c at_x w visible :: steps' =>
      at_x = x ∧ x ≤ dot_width d ∧
      ∃ g d1,
        glyphs !! key c = Some g ∧ w = glyph_width g ∧
        draw x y (rows g) o d = (Normal visible, d1) ∧
        replays glyphs y o (x + (w + 1)) d1 steps' x' d'
  end.

(** How a run of [print] ends, with the cursor at [x'] on the display [d1]
    and the characters [rest] unread.  A normal return leaves the display
    [d1], and either every character was read or the cursor is beyond
    [dot_width].  A throw comes from [draw] on the glyph of the next
    character, called at the cursor, and leaves the display of that call. *)
Definition stops_at (glyphs : gmap string glyph) (y : Z) (o : options)
    {A : Type} (r : completion A) (d_end : display)
    (x' : Z) (d1 : display) (rest : list ascii) : Prop :=
  match r with
  | Normal _ => d_end = d1 ∧ (rest = [] ∨ dot_width d1 < x')
  | Throw e =>
      ∃ c rest' g,
        rest = c :: rest' ∧ x' ≤ dot_width d1 ∧
        glyphs !! key c = Some g ∧
        draw x' y (rows g) o d1 = (Throw e, d_end)
  end.

(** The cursor after a journal that started at column [x]. *)
Fixpoint cursor_after (x : Z) (steps : list step) : Z :=
  match steps with
  | [] => x
  | Skipped _ _ :: steps' => cursor_after x steps'
  | Drawn _ _ w _ :: steps' => cursor_after (x + (w + 1)) steps'
  end.

(** The number of calls of [draw] in a journal that returned [true]. *)
Fixpoint visible_count (steps : list step) : Z :=
  match steps with
  | [] => 0
  | Drawn _ _ _ true :: steps' => 1 + visible_count steps'
  | _ :: steps' => visible_count steps'
  end.

(** The font as [print] has it after caching widths, against the font it
    was handed: same keys, same rows, same widths. *)
Definition same_glyphs (g0 g : gmap string glyph) : Prop :=
  ∀ k, match g0 !! k, g !! k with
       | Some a, Some b => rows b = rows a ∧ glyph_width b = glyph_width a
       | None, None => True
       | _, _ => False
       end.

(** [(i, j)] is a dot of the box [[x, x + w) × [y, y + h)]. *)
Definition in_box (x y w h i j : Z) : Prop :=
  x ≤ i < x + w ∧ y ≤ j < y + h.

(** [(i, j)] is on the top row, the bottom row, the left column or the
    right column of the box. *)
Definition on_border (x y w h i j : Z) : Prop :=
  in_box x y w h i j ∧ (j = y ∨ j = y + h - 1 ∨ i = x ∨ i = x + w - 1).

(** The state after storing the fill style [s] at index [k], as [set]
    does. *)
Definition write (s : string) (d : display) (k : Z) : display :=
  with_dirtyIndicies (dirtyIndicies d ++ [k]) (with_data (put (data d) k s) d).

(** The flat indices at which [rect] calls [set], in the order of its two
    loops, on a display of width [W]. *)
Definition rect_indices (W x y w h : Z) : list Z :=
  i ← seqZ x w;
  j ← seqZ y h;
  if (j =? y) || (j =? y + h - 1) || (i =? x) || (i =? x + w - 1)
  then [j * W + i] else [].

(** States that share their width and off colour with [d0]. *)
Definition akin (d0 d : display) : Prop :=
  dot_width d = dot_width d0 ∧ off d = off d0.

(** The grid is whole: [data] has one entry per dot and each of them holds
    a fill style. *)
Definition grid_ok (d : display) : Prop :=
  arr_length (data d) = dot_width d * dot_height d ∧
  ∀ k, 0 ≤ k < dot_width d * dot_height d → is_Some (cell d k).

(** The geometry and the styles of a display, which no operation on it
    changes. *)
Definition same_setup (d d' : display) : Prop :=
  canvas_width d' = canvas_width d ∧ canvas_height d' = canvas_height d ∧
  dot_size d' = dot_size d ∧ dot_width d' = dot_width d ∧
  dot_height d' = dot_height d ∧ refresh d' = refresh d ∧
  drawMode d' = drawMode d ∧ background d' = background d ∧ off d' = off d.

(** The flat indices at which [fill] calls [set], in the order of its two
    loops, on a display of width [W]. *)
Definition fill_indices (W x y w h : Z) : list Z :=
  i ← seqZ x w; j ← seqZ y h; [j * W + i].

(** The calls that [updateLed(i, flush)] issues on the context. *)
Definition led_ops (d : display) (drawCircles flush : bool) (i : Z)
  : list surface_op :=
  let ox := Z.rem i (dot_width d) * dot_size d in
  let oy := (i / dot_width d) * dot_size d in
  (if flush
   then [SetFillStyle (Some (background d));
         FillRect ox oy (dot_size d) (dot_size d)]
   else []) ++
  [SetFillStyle (cell d i)] ++
  (if drawCircles
   then [BeginPath; Arc ox oy (dot_size d); Fill]
   else [FillRect ox oy (dot_size d) (dot_size d)]).

(** The fill style that [draw] stores under a bit when the colour stands
    for [s]: [s] under a lit bit, the off colour under any other. *)
Definition bit_style (d : display) (s : string) (b : Z) : string :=
  if b =? 1 then s else off d.

(** The column at which a step of [print] found the cursor. *)
Definition step_x (s : step) : Z :=
  match s with
  | Skipped _ x => x
  | Drawn _ x _ _ => x
  end.

(** ** [set] *)

(** The display of the examples is the one the constructor builds. *)
Lemma DMD_grid4 :
  DMD 4 4 (mkConfig (Some 1) None None None None) = Normal grid4.
Proof. reflexivity. Qed.

Lemma append_assoc (s1 s2 s3 : string) :
  (s1 +:+ s2) +:+ s3 = s1 +:+ (s2 +:+ s3).
Proof.
  induction s1 as [|a s1 IH]; [done |].
  change (String a ((s1 +:+ s2) +:+ s3) = String a (s1 +:+ (s2 +:+ s3))).
  by rewrite IH.
Qed.

Section set_facts.

Context (d : display) (x y : Z).

Lemma resolve_color_valid c s :
  resolves_to d c s → resolve_color d c = Normal (Some s).
Proof.
  destruct 1; try reflexivity.
  unfold resolve_color; simpl. by rewrite !append_assoc.
Qed.

(** A call that stores: the state it leaves. *)
Lemma set_stores c s :
  resolve_color d c = Normal (Some s) →
  set x y c d =
    (Normal (),
     with_dirtyIndicies (dirtyIndicies d ++ [flat d x y])
       (with_data (put (data d) (flat d x y) s) d)).
Proof. intros H. unfold set. by rewrite H. Qed.

(** Whatever the colour and the coordinates, [set] leaves every entry of
    [data] other than the one at [flat d x y] as it was. *)
Lemma set_frame c k :
  k ≠ flat d x y → cell (set x y c d).2 k = cell d k.
Proof.
  intros Hk. unfold set.
  destruct (resolve_color d c) as [[s|]|e]; simpl; try done.
  unfold cell, get; simpl. by rewrite lookup_insert_ne.
Qed.

End set_facts.

(** C6.  For in-bounds [(x, y)] and a valid colour [c] standing for the fill
    style [s] (a string for itself, a triple of integer channels of
    magnitude below [2^53] for ['rgb(r,g,b)'], an omitted colour for the off
    colour), [set(x, y, c)] returns normally, the cell at flat index
    [y * dot_width + x] then holds [s], and that index is in
    [dirtyIndicies]. *)
Theorem set_in_bounds_stores (d : display) (x y : Z) (c : value) (s : string) :
  in_bounds d x y →
  resolves_to d c s →
  ∃ d', set x y c d = (Normal (), d') ∧
        cell d' (y * dot_width d + x) = Some s ∧
        y * dot_width d + x ∈ dirtyIndicies d'.
Proof.
  intros _ Hc. eexists. split.
  - apply set_stores, resolve_color_valid, Hc.
  - split; simpl.
    + unfold cell, get; simpl. apply lookup_insert_eq.
    + apply elem_of_app. right. by apply list_elem_of_singleton.
Qed.

(** The example [set(1, 1, 'rgb(1,2,3)')] on the 4 by 4 grid: cell 5. *)
Lemma set_in_bounds_stores_witness :
  ∃ d', set 1 1 (str "rgb(1,2,3)") grid4 = (Normal (), d') ∧
        cell d' (1 * dot_width grid4 + 1) = Some "rgb(1,2,3)" ∧
        1 * dot_width grid4 + 1 ∈ dirtyIndicies d'.
Proof.
  apply (set_in_bounds_stores grid4 1 1 (str "rgb(1,2,3)") "rgb(1,2,3)").
  - unfold in_bounds; simpl; lia.
  - apply resolves_string.
Defined.

(** C2, as stated, fails: on the 4 by 4 grid [set(4, 0, 'red')] is out of
    bounds in [x], and the dot at column 0 of row 1, whose flat index is
    also 4, changes from the off colour to ['red']. *)
Lemma set_out_of_bounds_counterexample :
  ¬ in_bounds grid4 4 0 ∧
  in_bounds grid4 0 1 ∧
  cell grid4 (flat grid4 0 1) = Some "rgb(50,50,50)" ∧
  cell (set 4 0 (str "red") grid4).2 (flat grid4 0 1) = Some "red".
Proof.
  repeat split; try (simpl; lia); try reflexivity.
  unfold in_bounds; simpl; lia.
Qed.

(** C2, amended.  For [(x, y)] outside the grid and any colour,
    [set(x, y, c)] leaves every dot of the grid whose flat index differs from
    [y * dot_width + x] with the colour it had. *)
Theorem set_out_of_bounds_frame (d : display) (x y : Z) (c : value)
    (x' y' : Z) :
  ¬ in_bounds d x y →
  in_bounds d x' y' →
  y' * dot_width d + x' ≠ y * dot_width d + x →
  cell (set x y c d).2 (y' * dot_width d + x') = cell d (y' * dot_width d + x').
Proof. intros _ _ Hne. by apply set_frame. Qed.

(** [set(4, 0, 'red')] on the 4 by 4 grid leaves the dot at [(1, 1)] alone. *)
Lemma set_out_of_bounds_frame_witness :
  cell (set 4 0 (str "red") grid4).2 (1 * dot_width grid4 + 1)
  = cell grid4 (1 * dot_width grid4 + 1).
Proof.
  apply (set_out_of_bounds_frame grid4 4 0 (str "red") 1 1).
  - unfold in_bounds; simpl; lia.
  - unfold in_bounds; simpl; lia.
  - simpl; lia.
Defined.

(** C5, as stated, fails: the two-element array [[1, 2]] is neither a
    string, nor a channel triple, nor omitted, yet [set(0, 0, [1, 2])]
    stores ['rgb(1,2)'] in cell 0 and appends 0 to [dirtyIndicies]. *)
Lemma set_invalid_color_counterexample :
  let c := VArr [PNum 1; PNum 2] in
  ¬ is_string c ∧ ¬ is_channel_triple c ∧ c ≠ undefined ∧
  cell grid4 0 = Some "rgb(50,50,50)" ∧
  dirtyIndicies grid4 = [] ∧
  (set 0 0 c grid4).1 = Normal () ∧
  cell (set 0 0 c grid4).2 0 = Some "rgb(1,2)" ∧
  dirtyIndicies (set 0 0 c grid4).2 = [0].
Proof.
  split; [intros [s Hs]; discriminate |].
  split; [intros (r & g & b & H); discriminate |].
  split; [discriminate |].
  repeat split; by vm_compute.
Qed.

(** C5, amended.  When [typeof c] is none of ['object'], ['undefined'] and
    ['string'] (a number, a boolean, a function), [set(x, y, c)] returns
    normally and leaves the whole state, [data] and [dirtyIndicies]
    included, as it was. *)
Theorem set_other_type_noop (d : display) (x y : Z) (c : value) :
  typeof c ≠ TObject →
  typeof c ≠ TUndefined →
  typeof c ≠ TString →
  set x y c d = (Normal (), d).
Proof.
  intros Ho Hu Hs. unfold set, resolve_color.
  destruct (decide (typeof c = TObject)); [done |].
  destruct (decide (typeof c = TUndefined)); [done |].
  by destruct (decide (typeof c ≠ TString)).
Qed.

(** [set(1, 1, 5)] on the 4 by 4 grid. *)
Lemma set_other_type_noop_witness :
  set 1 1 (num 5) grid4 = (Normal (), grid4).
Proof.
  apply (set_other_type_noop grid4 1 1 (num 5)); simpl; discriminate.
Defined.

(** ** [painter] *)

Section painter_facts.

Lemma updateLed_dirty c i flush d :
  dirty (updateLed c i flush d) = dirty d.
Proof. unfold updateLed; by destruct flush, c. Qed.

Lemma updateLed_dirtyIndicies c i flush d :
  dirtyIndicies (updateLed c i flush d) = dirtyIndicies d.
Proof. unfold updateLed; by destruct flush, c. Qed.

Lemma updateLed_data c i flush d :
  data (updateLed c i flush d) = data d.
Proof. unfold updateLed; by destruct flush, c. Qed.

Lemma repaint_dirtyIndicies c flush (l : list Z) d :
  dirtyIndicies (foldl (λ s i, updateLed c i flush s) d l)
  = dirtyIndicies d.
Proof.
  revert d; induction l as [|i l IH]; intros d; simpl; [done |].
  by rewrite IH, updateLed_dirtyIndicies.
Qed.

Lemma repaint_dirty c flush (l : list Z) d :
  dirty (foldl (λ s i, updateLed c i flush s) d l) = dirty d.
Proof.
  revert d; induction l as [|i l IH]; intros d; simpl; [done |].
  by rewrite IH, updateLed_dirty.
Qed.

Lemma repaint_data c flush (l : list Z) d :
  data (foldl (λ s i, updateLed c i flush s) d l) = data d.
Proof.
  revert d; induction l as [|i l IH]; intros d; simpl; [done |].
  by rewrite IH, updateLed_data.
Qed.

(** Every call of [painter] leaves the flag down. *)
Lemma painter_clears_flag d : dirty (painter d) = false.
Proof.
  unfold painter.
  destruct (dirty d) eqn:Hd; simpl; rewrite ?Hd; [done |].
  destruct (Z.of_nat (length (dirtyIndicies d)) =? 0); simpl; [done |].
  by rewrite repaint_dirty.
Qed.

(** The sparse branch drains [dirtyIndicies]; the full branch returns it
    as it found it. *)
Lemma painter_dirtyIndicies d :
  dirtyIndicies (painter d) = if dirty d then dirtyIndicies d else [].
Proof.
  unfold painter.
  destruct (dirty d) eqn:Hd; simpl; rewrite ?Hd; simpl.
  - by rewrite repaint_dirtyIndicies.
  - by destruct (dirtyIndicies d) as [|k l] eqn:Hl.
Qed.

(** [painter] never writes to [data]. *)
Lemma painter_data d : data (painter d) = data d.
Proof.
  unfold painter.
  destruct (dirty d) eqn:Hd; simpl; rewrite ?Hd; simpl.
  - by rewrite repaint_data.
  - destruct (Z.of_nat (length (dirtyIndicies d)) =? 0); simpl; [done |].
    by rewrite repaint_data.
Qed.

End painter_facts.

(** C1, on the code.  A display is created (the flag is up), [set(0, 0,
    'red')] is called, and [painter] runs once: the flag is down, but
    [dirtyIndicies] still holds the index 0 pushed by [set]. *)
Theorem painter_full_repaint_keeps_indices :
  ∃ d0, DMD 4 4 (mkConfig (Some 1) None None None None) = Normal d0 ∧
    let d1 := (set 0 0 (str "red") d0).2 in
    dirty d1 = true ∧ dirtyIndicies d1 = [0] ∧
    dirty (painter d1) = false ∧ dirtyIndicies (painter d1) = [0].
Proof.
  exists grid4. split; [reflexivity |].
  cbv zeta. repeat split; by vm_compute.
Qed.

(** ** [draw]: what it writes *)

Section draw_effects.

Lemma bind_unfold {A B} (m : M A) (k : A → M B) (d : display) :
  (m ≫= k) d =
    match m d with
    | (Normal a, d') => k a d'
    | (Throw e, d') => (Throw e, d')
    end.
Proof. reflexivity. Qed.

Lemma extends_refl d : extends d d [].
Proof. split; try done. by rewrite app_nil_r. Qed.

Lemma extends_trans d1 d2 d3 a b :
  extends d1 d2 a → extends d2 d3 b → extends d1 d3 (a ++ b).
Proof.
  intros [i1 w1 h1 o1 f1] [i2 w2 h2 o2 f2]. split; try congruence.
  - by rewrite i2, i1, app_assoc.
  - intros k Hk. rewrite not_elem_of_app in Hk. destruct Hk as [Ha Hb].
    by rewrite f2, f1.
Qed.

Lemma flat_extends d d' added x y :
  extends d d' added → flat d' x y = flat d x y.
Proof. intros E. unfold flat. by rewrite (ext_width _ _ _ E). Qed.

(** One call of [set] writes at most the entry at its own flat index. *)
Lemma set_extends x y c d :
  ∃ added, extends d (set x y c d).2 added ∧
           ∀ k, k ∈ added → k = flat d x y.
Proof.
  unfold set. destruct (resolve_color d c) as [[s|]|e]; simpl.
  - exists [flat d x y]. split.
    + split; try done. intros k Hk. unfold cell, get; simpl.
      apply lookup_insert_ne. intros <-. apply Hk. by left.
    + intros k Hk. by apply list_elem_of_singleton in Hk.
  - exists []. split; [apply extends_refl | by intros k Hk; inversion Hk].
  - exists []. split; [apply extends_refl | by intros k Hk; inversion Hk].
Qed.

(** The writes of the inner loop: each one is at a column of the grid
    under a bit that is lit, or under any bit when [forceFill] is set. *)
Lemma draw_row_effects bits : ∀ px py color forceFill hp d,
  ∃ added,
    extends d (draw_row px py bits color forceFill hp d).2 added ∧
    ∀ k, k ∈ added →
      ∃ (j : nat) b,
        bits !! j = Some b ∧ 0 ≤ px + Z.of_nat j < dot_width d ∧
        k = flat d (px + Z.of_nat j) py ∧ (b = 1 ∨ forceFill = true).
Proof.
  induction bits as [|b bits IH]; intros px py color forceFill hp d.
  { exists []. split; [apply extends_refl | by intros k Hk; inversion Hk]. }
  assert (Hshift : ∀ d1 a0 a1 hp',
    extends d d1 a0 →
    (∀ k, k ∈ a0 → k = flat d px py ∧ 0 ≤ px < dot_width d ∧
                    (b = 1 ∨ forceFill = true)) →
    extends d1 (draw_row (px + 1) py bits color forceFill hp' d1).2 a1 →
    (∀ k, k ∈ a1 →
       ∃ (j : nat) b0, bits !! j = Some b0 ∧
         0 ≤ px + 1 + Z.of_nat j < dot_width d1 ∧
         k = flat d1 (px + 1 + Z.of_nat j) py ∧ (b0 = 1 ∨ forceFill = true)) →
    ∃ added,
      extends d (draw_row (px + 1) py bits color forceFill hp' d1).2 added ∧
      ∀ k, k ∈ added →
        ∃ (j : nat) b0, (b :: bits) !! j = Some b0 ∧
          0 ≤ px + Z.of_nat j < dot_width d ∧
          k = flat d (px + Z.of_nat j) py ∧ (b0 = 1 ∨ forceFill = true)).
  { intros d1 a0 a1 hp' E0 H0 E1 H1. exists (a0 ++ a1). split.
    - by eapply extends_trans.
    - intros k [Hk|Hk]%elem_of_app.
      + destruct (H0 k Hk) as (-> & Hpx & Hb).
        exists 0%nat, b. repeat split; try done; try lia.
        f_equal; lia.
      + destruct (H1 k Hk) as (j & b0 & Hj & Hpx & -> & Hb).
        exists (S j), b0. rewrite (ext_width _ _ _ E0) in Hpx.
        rewrite (flat_extends _ _ _ _ _ E0).
        repeat split; try done; try lia. f_equal; lia. }
  simpl.
  destruct ((0 <=? px) && (px <? dot_width d)) eqn:Hin.
  - apply andb_true_iff in Hin as [H1%Z.leb_le H2%Z.ltb_lt].
    destruct ((b =? 1) || forceFill) eqn:Hshow.
    + rewrite bind_unfold.
      destruct (set_extends px py (if b =? 1 then color else undefined) d)
        as (a0 & E0 & Ha0).
      assert (Hb : b = 1 ∨ forceFill = true).
      { apply orb_true_iff in Hshow as [Hb%Z.eqb_eq|Hf]; auto. }
      destruct (set px py (if b =? 1 then color else undefined) d)
        as [[[]|e] d1] eqn:Hset; simpl in E0.
      * destruct (IH (px + 1) py color forceFill true d1) as (a1 & E1 & Ha1).
        eapply Hshift; eauto.
      * exists a0. split; [done |].
        intros k Hk. exists 0%nat, b. rewrite (Ha0 k Hk).
        repeat split; try done; try lia. f_equal; lia.
    + destruct (IH (px + 1) py color forceFill hp d) as (a1 & E1 & Ha1).
      eapply (Hshift d [] a1); eauto using extends_refl.
      intros k Hk; inversion Hk.
  - destruct (IH (px + 1) py color forceFill hp d) as (a1 & E1 & Ha1).
    eapply (Hshift d [] a1); eauto using extends_refl.
    intros k Hk; inversion Hk.
Qed.

Lemma footprint_write_here d x y bits shape forceFill k (j : nat) b :
  bits !! j = Some b →
  0 ≤ x + Z.of_nat j < dot_width d →
  0 ≤ y < dot_height d →
  k = flat d (x + Z.of_nat j) y →
  b = 1 ∨ forceFill = true →
  footprint_write d x y (RowArr bits :: shape) forceFill k.
Proof.
  intros Hj Hx Hy -> Hb. exists 0%nat, j, b.
  unfold in_bounds, flat. repeat split; try done; try lia.
Qed.

Lemma footprint_write_below d d1 a x y r shape forceFill k :
  extends d d1 a →
  footprint_write d1 x (y + 1) shape forceFill k →
  footprint_write d x y (r :: shape) forceFill k.
Proof.
  intros E (i & j & b & Hb & [Hx Hy] & -> & Hl).
  rewrite (ext_width _ _ _ E) in *. rewrite (ext_height _ _ _ E) in Hy.
  exists (S i), j, b. unfold in_bounds.
  repeat split; try done; lia.
Qed.

Lemma draw_rows_effects shape : ∀ x py color forceFill hp d,
  ∃ added,
    extends d (draw_rows x py shape color forceFill hp d).2 added ∧
    ∀ k, k ∈ added → footprint_write d x py shape forceFill k.
Proof.
  induction shape as [|r shape IH]; intros x py color forceFill hp d.
  { exists []. split; [apply extends_refl | by intros k Hk; inversion Hk]. }
  assert (Hskip : ∀ hp',
    ∃ added,
      extends d (draw_rows x (py + 1) shape color forceFill hp' d).2 added ∧
      ∀ k, k ∈ added → footprint_write d x py (r :: shape) forceFill k).
  { intros hp'.
    destruct (IH x (py + 1) color forceFill hp' d) as (a1 & E1 & Ha1).
    exists a1. split; [done |]. intros k Hk.
    eapply footprint_write_below; [apply extends_refl | eauto]. }
  simpl.
  destruct ((0 <=? py) && (py <? dot_height d)) eqn:Hin; [| apply Hskip].
  apply andb_true_iff in Hin as [H1%Z.leb_le H2%Z.ltb_lt].
  destruct r as [bits | n]; [| apply Hskip].
  rewrite bind_unfold.
  destruct (draw_row_effects bits x py color forceFill hp d)
    as (a0 & E0 & Ha0).
  destruct (draw_row x py bits color forceFill hp d) as [[hp'|e] d1];
    simpl in E0.
  - destruct (IH x (py + 1) color forceFill hp' d1) as (a1 & E1 & Ha1).
    exists (a0 ++ a1). split; [by eapply extends_trans |].
    intros k [Hk|Hk]%elem_of_app.
    + destruct (Ha0 k Hk) as (j & b & Hj & Hx & Hkk & Hb).
      by eapply footprint_write_here.
    + eapply footprint_write_below; eauto.
  - exists a0. split; [done |]. intros k Hk.
    destruct (Ha0 k Hk) as (j & b & Hj & Hx & Hkk & Hb).
    by eapply footprint_write_here.
Qed.

(** [draw] as a whole. *)
Lemma draw_effects x y shape o d :
  ∃ added,
    extends d (draw x y shape o d).2 added ∧
    ∀ k, k ∈ added → footprint_write d x y shape (opt_fill o) k.
Proof. apply draw_rows_effects. Qed.

(** Two dots of the grid with the same flat index are the same dot. *)
Lemma flat_inj d x y x' y' :
  in_bounds d x y → in_bounds d x' y' →
  y * dot_width d + x = y' * dot_width d + x' → x = x' ∧ y = y'.
Proof.
  unfold in_bounds. intros [Hx Hy] [Hx' Hy'] H.
  assert (y = y') as ->.
  { destruct (Z.lt_trichotomy y y') as [Hlt|[Heq|Hgt]]; [| done |];
      exfalso; nia. }
  split; [lia | done].
Qed.

(** The flat index of a dot of the grid is an index of [data]. *)
Lemma flat_range d x y :
  in_bounds d x y →
  0 ≤ y * dot_width d + x < dot_width d * dot_height d.
Proof. unfold in_bounds. intros [Hx Hy]. nia. Qed.

End draw_effects.

(** C8.  With [options.fill] false or absent, a dot of the grid that lies
    under a bit of the shape other than 1 (a 0 bit in particular) keeps its
    colour through [draw], and its flat index is not among those that the
    call pushes on [dirtyIndicies]. *)
Theorem draw_no_fill_keeps_unlit (d : display) (x y : Z) (shape : list row)
    (o : options) (i j : nat) (b : Z) :
  opt_fill o = false →
  bit_at shape i j = Some b →
  b ≠ 1 →
  in_bounds d (x + Z.of_nat j) (y + Z.of_nat i) →
  cell (draw x y shape o d).2 ((y + Z.of_nat i) * dot_width d + (x + Z.of_nat j))
  = cell d ((y + Z.of_nat i) * dot_width d + (x + Z.of_nat j)) ∧
  ∃ added,
    dirtyIndicies (draw x y shape o d).2 = dirtyIndicies d ++ added ∧
    (y + Z.of_nat i) * dot_width d + (x + Z.of_nat j) ∉ added.
Proof.
  intros Hfill Hbit Hb Hin.
  destruct (draw_effects x y shape o d) as (added & E & Hadded).
  assert (Hk : (y + Z.of_nat i) * dot_width d + (x + Z.of_nat j) ∉ added).
  { intros Hk. destruct (Hadded _ Hk) as (i' & j' & b' & Hbit' & Hin' & Heq & Hl).
    destruct (flat_inj _ _ _ _ _ Hin Hin' Heq) as [Hj Hi].
    assert (j' = j) as -> by lia. assert (i' = i) as -> by lia.
    rewrite Hbit in Hbit'. injection Hbit' as <-.
    destruct Hl; congruence. }
  split.
  - by apply (ext_frame _ _ _ E).
  - exists added. split; [apply (ext_indices _ _ _ E) | done].
Qed.

(** The glyph of ['A'] drawn at the origin: the dot under its first bit, a 0. *)
Lemma draw_no_fill_keeps_unlit_witness :
  let shape := [RowArr [0; 1; 0]; RowArr [1; 1; 1]] in
  let o := mkOptions (str "white") false in
  cell (draw 0 0 shape o grid4).2
    ((0 + Z.of_nat 0) * dot_width grid4 + (0 + Z.of_nat 0))
  = cell grid4 ((0 + Z.of_nat 0) * dot_width grid4 + (0 + Z.of_nat 0)) ∧
  ∃ added,
    dirtyIndicies (draw 0 0 shape o grid4).2 = dirtyIndicies grid4 ++ added ∧
    (0 + Z.of_nat 0) * dot_width grid4 + (0 + Z.of_nat 0) ∉ added.
Proof.
  intros shape o.
  apply (draw_no_fill_keeps_unlit grid4 0 0 shape o 0 0 0).
  - reflexivity.
  - reflexivity.
  - lia.
  - unfold in_bounds; simpl; lia.
Defined.

(** C10.  Whatever [x] and [y], the indices written by [draw] (those it
    pushes on [dirtyIndicies], which include every entry of [data] whose
    value changes) are flat indices of dots of the grid lying under a bit of
    the shape at row [i], column [j], and so fall in
    [0, dot_width * dot_height). *)
Theorem draw_writes_in_footprint (d : display) (x y : Z) (shape : list row)
    (o : options) :
  ∃ added,
    dirtyIndicies (draw x y shape o d).2 = dirtyIndicies d ++ added ∧
    (∀ k, cell (draw x y shape o d).2 k ≠ cell d k → k ∈ added) ∧
    ∀ k, k ∈ added →
      (∃ (i j : nat) bits,
         shape !! i = Some (RowArr bits) ∧ (j < length bits)%nat ∧
         in_bounds d (x + Z.of_nat j) (y + Z.of_nat i) ∧
         k = (y + Z.of_nat i) * dot_width d + (x + Z.of_nat j)) ∧
      0 ≤ k < dot_width d * dot_height d.
Proof.
  destruct (draw_effects x y shape o d) as (added & E & Hadded).
  exists added. split; [apply (ext_indices _ _ _ E) |]. split.
  - intros k Hk. destruct (decide (k ∈ added)) as [|Hn]; [done |].
    destruct Hk. by apply (ext_frame _ _ _ E).
  - intros k Hk.
    destruct (Hadded _ Hk) as (i & j & b & Hbit & Hin & -> & _).
    split; [| by apply flat_range].
    unfold bit_at in Hbit.
    destruct (shape !! i) as [[bits|n]|] eqn:Hrow; try done.
    exists i, j, bits. repeat split; try done; try apply Hin.
    by eapply lookup_lt_Some.
Qed.

(** ** [draw]: what it returns *)

Section draw_result.

Lemma set_result x y c d :
  (set x y c d).1 = if unjoinable c then Throw TypeError else Normal ().
Proof. by destruct c as [[]| | |]. Qed.

Lemma set_width x y c d : dot_width (set x y c d).2 = dot_width d.
Proof.
  destruct (set_extends x y c d) as (a & E & _). apply (ext_width _ _ _ E).
Qed.

Lemma draw_row_result bits : ∀ px py color forceFill hp d,
  (draw_row px py bits color forceFill hp d).1 =
    if unjoinable color && row_any (λ b, b =? 1) (dot_width d) px bits
    then Throw TypeError
    else Normal (hp || row_any (λ b, (b =? 1) || forceFill)
                               (dot_width d) px bits).
Proof.
  induction bits as [|b bits IH]; intros px py color forceFill hp d; simpl.
  { by rewrite andb_false_r, orb_false_r. }
  destruct ((0 <=? px) && (px <? dot_width d)) eqn:Hin; simpl;
    [| by rewrite IH].
  destruct (b =? 1) eqn:Hb; simpl.
  - rewrite bind_unfold.
    pose proof (set_result px py color d) as Hr.
    pose proof (set_width px py color d) as Hw.
    destruct (set px py color d) as [[[]|e] d1]; simpl in Hr, Hw.
    + destruct (unjoinable color) eqn:Hu; [done |].
      rewrite IH, Hu. simpl. by rewrite orb_true_r.
    + destruct (unjoinable color); [| done].
      simpl. congruence.
  - destruct forceFill; simpl; [| by rewrite IH].
    rewrite bind_unfold.
    pose proof (set_result px py undefined d) as Hr.
    pose proof (set_width px py undefined d) as Hw.
    destruct (set px py undefined d) as [[[]|e] d1]; simpl in Hr, Hw;
      [| done].
    rewrite IH, Hw. simpl. by rewrite orb_true_r.
Qed.

Lemma draw_rows_result shape : ∀ x py color forceFill hp d,
  (draw_rows x py shape color forceFill hp d).1 =
    if unjoinable color &&
       shape_any (λ b, b =? 1) (dot_width d) (dot_height d) x py shape
    then Throw TypeError
    else Normal (hp || shape_any (λ b, (b =? 1) || forceFill)
                                 (dot_width d) (dot_height d) x py shape).
Proof.
  induction shape as [|r shape IH]; intros x py color forceFill hp d; simpl.
  { by rewrite andb_false_r, orb_false_r. }
  destruct ((0 <=? py) && (py <? dot_height d)) eqn:Hin; simpl;
    [| by rewrite IH].
  destruct r as [bits | n]; simpl; [| by rewrite IH].
  rewrite bind_unfold.
  pose proof (draw_row_result bits x py color forceFill hp d) as Hr.
  destruct (draw_row_effects bits x py color forceFill hp d)
    as (a & E & _).
  destruct (draw_row x py bits color forceFill hp d) as [[hp'|e] d1];
    simpl in Hr, E.
  - rewrite IH, (ext_width _ _ _ E), (ext_height _ _ _ E).
    destruct (unjoinable color) eqn:Hu; simpl in *.
    + destruct (row_any _ _ _ _); [done |]. simpl.
      injection Hr as ->. by rewrite orb_assoc.
    + injection Hr as ->. by rewrite orb_assoc.
  - destruct (unjoinable color); simpl in *; [| done].
    destruct (row_any _ _ _ _); [simpl; congruence | done].
Qed.

Lemma row_any_spec P w bits : ∀ px,
  row_any P w px bits = true ↔
  ∃ (j : nat) b,
    bits !! j = Some b ∧ 0 ≤ px + Z.of_nat j < w ∧ P b = true.
Proof.
  induction bits as [|b bits IH]; intros px; simpl.
  { split; [done | by intros (j & b & Hj & _)]. }
  rewrite orb_true_iff, IH, !andb_true_iff, Z.leb_le, Z.ltb_lt. split.
  - intros [[[H1 H2] HP] | (j & b' & Hj & Hpx & HP)].
    + exists 0%nat, b. repeat split; try done; lia.
    + exists (S j), b'. repeat split; try done; lia.
  - intros ([|j] & b' & Hj & Hpx & HP); simpl in Hj.
    + injection Hj as ->. left. repeat split; try done; lia.
    + right. exists j, b'. repeat split; try done; lia.
Qed.

Lemma shape_any_spec P w h x shape : ∀ py,
  shape_any P w h x py shape = true ↔
  ∃ (i j : nat) b,
    bit_at shape i j = Some b ∧
    (0 ≤ x + Z.of_nat j < w ∧ 0 ≤ py + Z.of_nat i < h) ∧ P b = true.
Proof.
  induction shape as [|r shape IH]; intros py; simpl.
  { split; [done | by intros (i & j & b & Hb & _)]. }
  rewrite orb_true_iff, IH, !andb_true_iff, Z.leb_le, Z.ltb_lt. split.
  - intros [[[H1 H2] HP] | (i & j & b' & Hb & [Hx Hy] & HP)].
    + destruct r as [bits | n]; [| done].
      apply row_any_spec in HP as (j & b & Hj & Hx & HP).
      exists 0%nat, j, b. repeat split; try done; lia.
    + exists (S i), j, b'. repeat split; try done; lia.
  - intros ([|i] & j & b' & Hb & [Hx Hy] & HP).
    + left. unfold bit_at in Hb; simpl in Hb.
      destruct r as [bits | n]; [| done].
      repeat split; try lia. apply row_any_spec. eauto.
    + right. exists i, j, b'. repeat split; try done; lia.
Qed.

End draw_result.

(** C4, as stated, fails: with [fill] set, [draw(0, 0, [[0]], ...)] on the 4
    by 4 grid returns [true] although the shape has no lit bit at all. *)
Lemma draw_result_counterexample :
  let shape := [RowArr [0]] in
  (draw 0 0 shape (mkOptions (str "white") true) grid4).1 = Normal true ∧
  ¬ lit_plotted grid4 0 0 shape.
Proof.
  split; [reflexivity |].
  intros (i & j & Hbit & _). unfold bit_at in Hbit.
  destruct i as [|i]; simpl in Hbit; [| done].
  destruct j as [|j]; simpl in Hbit; done.
Qed.

(** C4, amended.  When the colour is not one on which [set] throws, [draw]
    returns a boolean, which is [true] if and only if some bit of the shape
    lying over a dot of the grid was handed to [set]: a lit bit, or any bit
    when [fill] is set.  It is therefore [false] for an empty shape, for a
    shape with no bit over the grid, and, with [fill] false, for a shape
    with no lit bit. *)
Theorem draw_returns_plotted (d : display) (x y : Z) (shape : list row)
    (o : options) :
  unjoinable (opt_color o) = false →
  ∃ b,
    (draw x y shape o d).1 = Normal b ∧
    (b = true ↔ plotted d x y shape (opt_fill o)) ∧
    (shape = [] → b = false) ∧
    ((∀ (i j : nat) bit, bit_at shape i j = Some bit →
        ¬ in_bounds d (x + Z.of_nat j) (y + Z.of_nat i)) → b = false) ∧
    (opt_fill o = false →
     (∀ (i j : nat) bit, bit_at shape i j = Some bit → bit ≠ 1) → b = false).
Proof.
  intros Hu. unfold draw. rewrite draw_rows_result, Hu. simpl.
  eexists. split; [reflexivity |].
  assert (Hiff :
    shape_any (λ b, (b =? 1) || opt_fill o) (dot_width d) (dot_height d)
      x y shape = true ↔ plotted d x y shape (opt_fill o)).
  { rewrite shape_any_spec. unfold plotted, in_bounds.
    split; intros (i & j & b & Hb & Hin & HP); exists i, j, b;
      (split; [done |]); (split; [done |]).
    - apply orb_true_iff in HP as [HP%Z.eqb_eq | HP]; auto.
    - apply orb_true_iff. destruct HP as [-> | ->]; auto. }
  split; [done |].
  assert (Hnot : ∀ b : bool, ¬ (b = true) → b = false).
  { by intros []. }
  repeat split.
  - by intros ->.
  - intros Hout. apply Hnot. rewrite Hiff.
    intros (i & j & b & Hb & Hin & _). by apply (Hout i j b).
  - intros Hfill Hunlit. apply Hnot. rewrite Hiff.
    intros (i & j & b & Hb & _ & [-> | Hf]).
    + by apply (Hunlit i j 1).
    + congruence.
Qed.

(** The glyph of ['A'] drawn at [(3, 3)], where only its corner is on the grid. *)
Lemma draw_returns_plotted_witness :
  let shape := [RowArr [0; 1; 0]; RowArr [1; 1; 1]] in
  let o := mkOptions (str "white") false in
  ∃ b,
    (draw 3 3 shape o grid4).1 = Normal b ∧
    (b = true ↔ plotted grid4 3 3 shape (opt_fill o)) ∧
    (shape = [] → b = false) ∧
    ((∀ (i j : nat) bit, bit_at shape i j = Some bit →
        ¬ in_bounds grid4 (3 + Z.of_nat j) (3 + Z.of_nat i)) → b = false) ∧
    (opt_fill o = false →
     (∀ (i j : nat) bit, bit_at shape i j = Some bit → bit ≠ 1) → b = false).
Proof.
  intros shape o. apply (draw_returns_plotted grid4 3 3 shape o). reflexivity.
Defined.

(** ** The text printer: [updateFontData], [updateFont] *)

Section font_facts.

Lemma max_row_length_nonneg rs : 0 ≤ max_row_length rs.
Proof. induction rs as [|[bits|n] rs IH]; simpl; lia. Qed.

Lemma updateFontData_fold rs : ∀ a,
  0 ≤ a →
  foldl (λ width r,
           match r with
           | RowArr bits => Z.max width (Z.of_nat (length bits))
           | RowNum _ => width
           end) a rs
  = Z.max a (max_row_length rs).
Proof.
  induction rs as [|[bits|n] rs IH]; intros a Ha; simpl.
  - lia.
  - rewrite IH; lia.
  - by rewrite IH.
Qed.

(** [updateFontData] caches the maximum row length and keeps the rows. *)
Lemma updateFontData_width g :
  width (updateFontData g) = Some (max_row_length (rows g)).
Proof.
  unfold updateFontData; simpl. rewrite updateFontData_fold by done.
  pose proof (max_row_length_nonneg (rows g)). f_equal. lia.
Qed.

Lemma updateFontData_rows g : rows (updateFontData g) = rows g.
Proof. reflexivity. Qed.

Lemma glyph_width_updateFontData g :
  lacks_width g = true →
  width_of (updateFontData g) = glyph_width g ∧
  glyph_width (updateFontData g) = glyph_width g.
Proof.
  intros Hl. unfold glyph_width at 1 3. rewrite Hl.
  unfold glyph_width, lacks_width, width_of.
  rewrite updateFontData_width; simpl.
  split; [done |]. destruct (_ =? 0) eqn:H0; done.
Qed.

(** A font without a numeric [length] goes through [updateFont]
    untouched. *)
Lemma updateFont_no_length f :
  font_length f = None → updateFont f = (Normal (), f).
Proof. intros H. unfold updateFont. by rewrite H. Qed.

Lemma with_width_idemp g : with_width (with_width g) = with_width g.
Proof.
  unfold with_width. destruct (lacks_width g) eqn:Hl; [| by rewrite Hl].
  by destruct (lacks_width (updateFontData g)).
Qed.

Lemma with_width_cached g : is_Some (width (with_width g)).
Proof.
  unfold with_width. destruct (lacks_width g) eqn:Hl.
  - rewrite updateFontData_width. eauto.
  - unfold lacks_width in Hl. destruct (width g); [eauto | done].
Qed.

(** On a table that has its glyphs under the numerals [indices], the loop
    of [updateFont] returns normally, with a width cached on each of those
    glyphs and every other entry untouched. *)
Lemma updateFont_loop_caches indices : ∀ glyphs,
  (∀ i, i ∈ indices → is_Some (glyphs !! pretty i)) →
  ∃ glyphs',
    updateFont_loop indices glyphs = (Normal (), glyphs') ∧
    ∀ k, glyphs' !! k =
           if decide (k ∈ (pretty <$> indices : list string))
           then with_width <$> glyphs !! k
           else glyphs !! k.
Proof.
  induction indices as [|i indices IH]; intros glyphs Hall.
  { exists glyphs. split; [done |]. intros k.
    by rewrite decide_False by by inversion 1. }
  cbn [updateFont_loop]. rewrite fmap_cons.
  destruct (Hall i) as [g Hg]; [by left |]. rewrite Hg.
  assert (Hstep : (if lacks_width g
                   then <[pretty i := updateFontData g]> glyphs else glyphs)
                  = <[pretty i := with_width g]> glyphs).
  { unfold with_width. destruct (lacks_width g); [done |].
    by rewrite insert_id. }
  rewrite Hstep.
  destruct (IH (<[pretty i := with_width g]> glyphs)) as (glyphs' & -> & Hk).
  { intros i' Hi'. destruct (decide (pretty i = (pretty i' : string))) as [<-|Hne].
    - rewrite lookup_insert_eq. eauto.
    - rewrite lookup_insert_ne by done. apply Hall. by right. }
  exists glyphs'. split; [done |]. intros k. rewrite Hk.
  destruct (decide (k = pretty i)) as [->|Hne].
  - rewrite lookup_insert_eq, Hg. simpl. rewrite with_width_idemp.
    rewrite (decide_True (P := _ ∈ _ :: _)) by by left.
    by destruct (decide _).
  - rewrite lookup_insert_ne by done.
    destruct (decide (k ∈ (pretty <$> indices : list string))) as [Hin|Hnin].
    + rewrite decide_True; [done | by right].
    + rewrite decide_False; [done |].
      intros [?|?]%elem_of_cons; done.
Qed.

(** [updateFont] on an array of glyphs: a width is cached on every one. *)
Lemma updateFont_array f n :
  font_length f = Some n →
  (∀ i, 0 ≤ i < n → is_Some (font_glyphs f !! pretty i)) →
  ∃ f',
    updateFont f = (Normal (), f') ∧
    ∀ i, 0 ≤ i < n →
      ∃ g, font_glyphs f !! pretty i = Some g ∧
           font_glyphs f' !! pretty i = Some (with_width g) ∧
           is_Some (width (with_width g)).
Proof.
  intros Hn Hall. unfold updateFont. rewrite Hn.
  destruct (updateFont_loop_caches (seqZ 0 n) (font_glyphs f))
    as (glyphs' & -> & Hk).
  { intros i Hi%elem_of_seqZ. apply Hall. lia. }
  eexists. split; [done |]. intros i Hi; simpl.
  destruct (Hall i Hi) as [g Hg]. exists g. split; [done |].
  split; [| apply with_width_cached].
  rewrite Hk, decide_True, Hg; [done |].
  apply list_elem_of_fmap. exists i. split; [done |].
  apply elem_of_seqZ. lia.
Qed.

End font_facts.

(** C3, on the code.  In the font [{'A': [[0,1,0],[1,1,1]]}] the glyph of
    ['A'] has no cached width; [updateFont] returns with the font as it was,
    the glyph still without a width, where [updateFontData] on that glyph
    would have cached 3. *)
Theorem updateFont_character_keys_untouched :
  font_glyphs font_A !! "A" = Some glyph_A ∧
  width glyph_A = None ∧
  updateFont font_A = (Normal (), font_A) ∧
  width (updateFontData glyph_A) = Some 3.
Proof. repeat split; by vm_compute. Qed.

(** ** The text printer: [print] *)

Section print_facts.

Context (y : Z) (o : print_options).

Lemma same_glyphs_refl g : same_glyphs g g.
Proof. intros k. by destruct (g !! k). Qed.

Lemma follows_app glyphs steps1 : ∀ x steps2,
  follows glyphs x steps1 →
  follows glyphs (cursor_after x steps1) steps2 →
  follows glyphs x (steps1 ++ steps2).
Proof.
  induction steps1 as [|[c a|c a w v] steps1 IH]; intros x steps2; simpl.
  - done.
  - intros (-> & Hc & H1) H2. auto.
  - intros (-> & Hc & H1) H2. auto.
Qed.

Lemma visible_count_nonneg steps : 0 ≤ visible_count steps.
Proof. induction steps as [|[c a|c a w []] steps IH]; simpl; lia. Qed.

Lemma visible_count_pos steps :
  0 < visible_count steps ↔ ∃ c x w, Drawn c x w true ∈ steps.
Proof.
  induction steps as [|s steps IH]; simpl.
  - split; [lia | intros (c & x & w & H); inversion H].
  - pose proof (visible_count_nonneg steps) as Hn.
    assert (Hcons : (∃ c x w, Drawn c x w true ∈ s :: steps) ↔
                    (∃ c x w, s = Drawn c x w true) ∨
                    (∃ c x w, Drawn c x w true ∈ steps)).
    { split.
      - intros (c & x & w & [<-|H]%elem_of_cons); eauto 6.
      - intros [(c & x & w & ->) | (c & x & w & H)];
          exists c, x, w; apply elem_of_cons; auto. }
    rewrite Hcons, <- IH.
    destruct s as [c a|c a w []]; split; try lia; eauto 6.
    + intros [(c' & x' & w' & H) | H]; [discriminate | done].
    + intros [(c' & x' & w' & H) | H]; [discriminate | done].
Qed.

(** The loop: its journal, its count and its font, from any state whose
    font carries the glyphs [glyphs0] it was handed. *)
Lemma print_loop_journal text : ∀ currentX printed w glyphs0,
  same_glyphs glyphs0 (font_glyphs (w_font w)) →
  ∃ new,
    w_journal (print_loop y text o currentX printed w).2
      = w_journal w ++ new ∧
    follows glyphs0 currentX new ∧
    map step_char new `prefix_of` chars text ∧
    same_glyphs glyphs0
      (font_glyphs (w_font (print_loop y text o currentX printed w).2)) ∧
    (∀ p, (print_loop y text o currentX printed w).1 = Normal p →
          p = printed + visible_count new) ∧
    (unjoinable (opt_color o) = false →
     ∃ p, (print_loop y text o currentX printed w).1 = Normal p).
Proof.
  induction text as [|c text IH]; intros currentX printed w glyphs0 Hsame.
  { exists []. simpl. rewrite app_nil_r.
    repeat split; try done.
    - intros p [= <-]. lia.
    - eauto. }
  assert (Hstop : ∀ r : completion Z * world,
    r = (Normal printed, w) →
    ∃ new,
      w_journal r.2 = w_journal w ++ new ∧
      follows glyphs0 currentX new ∧
      map step_char new `prefix_of` chars (String c text) ∧
      same_glyphs glyphs0 (font_glyphs (w_font r.2)) ∧
      (∀ p, r.1 = Normal p → p = printed + visible_count new) ∧
      (unjoinable (opt_color o) = false → ∃ p, r.1 = Normal p)).
  { intros r ->. exists []. simpl. rewrite app_nil_r.
    repeat split; try done.
    - apply prefix_nil.
    - intros p [= <-]. lia.
    - eauto. }
  simpl.
  destruct (currentX <=? dot_width (w_display w)); [| by apply Hstop].
  pose proof (Hsame (key c)) as Hk.
  destruct (font_glyphs (w_font w) !! key c) as [g|] eqn:Hg.
  - (* a glyph: cache its width if need be, draw, advance *)
    destruct (glyphs0 !! key c) as [g0|] eqn:Hg0; [| done].
    destruct Hk as [Hrows Hwidth].
    set (characterFont := if lacks_width g then updateFontData g else g).
    set (f' := if lacks_width g
               then mkFont (font_length (w_font w))
                      (<[key c := characterFont]> (font_glyphs (w_font w)))
               else w_font w).
    assert (Hcf : width_of characterFont = glyph_width g ∧
                  glyph_width characterFont = glyph_width g ∧
                  rows characterFont = rows g).
    { unfold characterFont. destruct (lacks_width g) eqn:Hl.
      - destruct (glyph_width_updateFontData g Hl). done.
      - unfold glyph_width. by rewrite Hl. }
    destruct Hcf as (Hw & Hgw & Hr).
    assert (Hsame' : same_glyphs glyphs0 (font_glyphs f')).
    { unfold f'. destruct (lacks_width g); [| done]. simpl.
      intros k. destruct (decide (k = key c)) as [->|Hne].
      - rewrite lookup_insert_eq, Hg0. split; congruence.
      - rewrite lookup_insert_ne by done. apply Hsame. }
    pose proof (draw_rows_result (rows characterFont) currentX y
                  (opt_color o) (opt_fill o) false (w_display w)) as Hres.
    fold (draw currentX y (rows characterFont) o (w_display w)) in Hres.
    destruct (draw currentX y (rows characterFont) o (w_display w))
      as [[visible|e] d'] eqn:Hdraw; simpl in Hres.
    + destruct (IH (currentX + (width_of characterFont + 1))
                   (if visible then printed + 1 else printed)
                   (mkWorld f'
                      (w_journal w ++
                         [Drawn c currentX (width_of characterFont) visible])
                      d')
                   glyphs0 Hsame')
        as (new & Hj & Hf & Hp & Hs & Hn & Ht).
      exists (Drawn c currentX (width_of characterFont) visible :: new).
      simpl in Hj. rewrite Hj, <- app_assoc. simpl.
      repeat split; try done.
      * exists g0. split; [done | congruence].
      * by apply prefix_cons.
      * intros p Hp'. rewrite (Hn p Hp'). destruct visible; lia.
    + exists []. simpl. rewrite app_nil_r. repeat split; try done.
      * apply prefix_nil.
      * intros Hu. rewrite Hu in Hres. done.
  - (* no glyph: log and go on with the cursor where it is *)
    destruct (glyphs0 !! key c) as [g0|] eqn:Hg0; [done |].
    destruct (IH currentX printed
                (mkWorld (w_font w) (w_journal w ++ [Skipped c currentX])
                         (w_display w))
                glyphs0 Hsame)
      as (new & Hj & Hf & Hp & Hs & Hn & Ht).
    exists (Skipped c currentX :: new).
    simpl in Hj. rewrite Hj, <- app_assoc. simpl.
    repeat split; try done.
    by apply prefix_cons.
Qed.

(** With no glyph at all every character is skipped: the loop returns its
    count and leaves the display alone. *)
Lemma print_loop_empty_font text : ∀ currentX printed w,
  font_glyphs (w_font w) = ∅ →
  (print_loop y text o currentX printed w).1 = Normal printed ∧
  w_display (print_loop y text o currentX printed w).2 = w_display w.
Proof.
  induction text as [|c text IH]; intros currentX printed w Hempty; simpl.
  { done. }
  destruct (currentX <=? dot_width (w_display w)); [| done].
  rewrite Hempty, lookup_empty.
  exact (IH currentX printed
           (mkWorld (w_font w) (w_journal w ++ [Skipped c currentX])
                    (w_display w)) Hempty).
Qed.

(** The loop does what its journal says, one character after the other,
    and goes on until the text is read, the cursor is beyond [dot_width], or
    [draw] throws. *)
Lemma print_loop_replays text : ∀ currentX printed w glyphs0,
  same_glyphs glyphs0 (font_glyphs (w_font w)) →
  ∃ new x' d1 rest,
    w_journal (print_loop y text o currentX printed w).2
      = w_journal w ++ new ∧
    chars text = map step_char new ++ rest ∧
    replays glyphs0 y o currentX (w_display w) new x' d1 ∧
    stops_at glyphs0 y o (print_loop y text o currentX printed w).1
      (w_display (print_loop y text o currentX printed w).2) x' d1 rest.
Proof.
  induction text as [|c text IH]; intros currentX printed w glyphs0 Hsame.
  { exists [], currentX, (w_display w), []. simpl. rewrite app_nil_r.
    repeat split; auto. }
  simpl.
  destruct (currentX <=? dot_width (w_display w)) eqn:Hle.
  2:{ apply Z.leb_gt in Hle.
      exists [], currentX, (w_display w), (c :: chars text). simpl.
      rewrite app_nil_r. repeat split; auto. }
  apply Z.leb_le in Hle.
  pose proof (Hsame (key c)) as Hk.
  destruct (font_glyphs (w_font w) !! key c) as [g|] eqn:Hg.
  - destruct (glyphs0 !! key c) as [g0|] eqn:Hg0; [| done].
    destruct Hk as [Hrows Hwidth].
    set (characterFont := if lacks_width g then updateFontData g else g).
    set (f' := if lacks_width g
               then mkFont (font_length (w_font w))
                      (<[key c := characterFont]> (font_glyphs (w_font w)))
               else w_font w).
    assert (Hcf : width_of characterFont = glyph_width g ∧
                  glyph_width characterFont = glyph_width g ∧
                  rows characterFont = rows g).
    { unfold characterFont. destruct (lacks_width g) eqn:Hl.
      - destruct (glyph_width_updateFontData g Hl). done.
      - unfold glyph_width. by rewrite Hl. }
    destruct Hcf as (Hw & Hgw & Hr).
    assert (Hsame' : same_glyphs glyphs0 (font_glyphs f')).
    { unfold f'. destruct (lacks_width g); [| done]. simpl.
      intros k. destruct (decide (k = key c)) as [->|Hne].
      - rewrite lookup_insert_eq, Hg0. split; congruence.
      - rewrite lookup_insert_ne by done. apply Hsame. }
    assert (Hrows0 : rows characterFont = rows g0) by congruence.
    rewrite Hrows0.
    destruct (draw currentX y (rows g0) o (w_display w))
      as [[visible|e] d'] eqn:Hdraw.
    + destruct (IH (currentX + (width_of characterFont + 1))
                   (if visible then printed + 1 else printed)
                   (mkWorld f'
                      (w_journal w ++
                         [Drawn c currentX (width_of characterFont) visible])
                      d')
                   glyphs0 Hsame')
        as (new & x' & d1 & rest & Hj & Hchars & Hrep & Hstop).
      exists (Drawn c currentX (width_of characterFont) visible :: new),
             x', d1, rest.
      simpl in Hj. rewrite Hj, <- app_assoc. simpl.
      split; [done |]. split; [by rewrite Hchars |].
      split; [| done].
      split; [done |]. split; [done |].
      exists g0, d'. repeat split; [done | congruence | done | done].
    + exists [], currentX, (w_display w), (c :: chars text). simpl.
      rewrite app_nil_r. repeat split; auto.
      exists c, (chars text), g0. auto.
  - destruct (glyphs0 !! key c) as [g0|] eqn:Hg0; [done |].
    destruct (IH currentX printed
                (mkWorld (w_font w) (w_journal w ++ [Skipped c currentX])
                         (w_display w))
                glyphs0 Hsame)
      as (new & x' & d1 & rest & Hj & Hchars & Hrep & Hstop).
    exists (Skipped c currentX :: new), x', d1, rest.
    simpl in Hj. rewrite Hj, <- app_assoc. simpl.
    split; [done |]. split; [by rewrite Hchars |].
    split; [| done]. auto.
Qed.

End print_facts.

(** C7.  [print] does what its journal says and stops only where the code
    does.  The journal replays on the font and the display handed to
    [print], character by character along the text: a character without a
    glyph is skipped, with the cursor unmoved and the display untouched, and
    the next character is read; a character with a glyph is drawn at the
    cursor by [draw], then the cursor moves by the glyph's width plus one,
    whatever [draw] returned, and the next character is read.  The run ends
    when the text is read or the cursor is beyond [dot_width] (or when
    [draw] throws), on the display the last call of [draw] left.  A
    returned boolean is [true] exactly when some call of [draw] returned
    [true], and [print] does return when the colour is not one on which
    [set] throws.  With an empty font [print] returns [false] and the display
    is left as it was. *)
Theorem print_cursor_and_result (x y : Z) (text : string) (f : font)
    (o : print_options) (d : display) :
  follows (font_glyphs f) x (w_journal (print x y text f o d).2) ∧
  map step_char (w_journal (print x y text f o d).2) `prefix_of` chars text ∧
  (∀ b, (print x y text f o d).1 = Normal b →
        (b = true ↔
         ∃ c cx w, Drawn c cx w true ∈ w_journal (print x y text f o d).2)) ∧
  (unjoinable (opt_color o) = false →
   ∃ b, (print x y text f o d).1 = Normal b) ∧
  (font_glyphs f = ∅ →
   (print x y text f o d).1 = Normal false ∧
   w_display (print x y text f o d).2 = d) ∧
  ∃ x' d1 rest,
    chars text = map step_char (w_journal (print x y text f o d).2) ++ rest ∧
    replays (font_glyphs f) y o x d
      (w_journal (print x y text f o d).2) x' d1 ∧
    stops_at (font_glyphs f) y o (print x y text f o d).1
      (w_display (print x y text f o d).2) x' d1 rest.
Proof.
  unfold print.
  destruct (print_loop_journal y o text x 0 (mkWorld f [] d) (font_glyphs f)
              (same_glyphs_refl _))
    as (new & Hj & Hf & Hp & _ & Hn & Ht).
  destruct (print_loop_replays y o text x 0 (mkWorld f [] d) (font_glyphs f)
              (same_glyphs_refl _))
    as (new' & x' & d1 & rest & Hj' & Hchars & Hrep & Hstop).
  pose proof (print_loop_empty_font y o text x 0 (mkWorld f [] d)) as He.
  destruct (print_loop y text o x 0 (mkWorld f [] d)) as [[p|e] w'];
    simpl in *; subst.
  - split; [done |]. split; [done |]. split; [| split; [| split]].
    + intros b [= <-]. rewrite <- visible_count_pos, Z.ltb_lt.
      by rewrite (Hn p eq_refl).
    + eauto.
    + intros Hempty. destruct (He Hempty) as [[= ->] ->]. done.
    + by exists x', d1, rest.
  - split; [done |]. split; [done |]. split; [done | split; [| split]].
    + intros Hu. by destruct (Ht Hu).
    + intros Hempty. by destruct (He Hempty).
    + by exists x', d1, rest.
Qed.

(** The example [print(0, 0, 'Z', {font: {}, color: 'white'})]. *)
Lemma print_cursor_and_result_witness :
  let o := mkOptions (str "white") false in
  (∃ b, (print 0 0 "Z" (mkFont None ∅) o grid4).1 = Normal b) ∧
  (print 0 0 "Z" (mkFont None ∅) o grid4).1 = Normal false ∧
  w_display (print 0 0 "Z" (mkFont None ∅) o grid4).2 = grid4.
Proof.
  intros o.
  destruct (print_cursor_and_result 0 0 "Z" (mkFont None ∅) o grid4)
    as (_ & _ & _ & Hret & Hempty & _).
  split.
  - apply Hret. reflexivity.
  - apply Hempty. reflexivity.
Defined.

(** A text with an unknown character followed by a known one: ['Z'] is
    skipped with the cursor at 0, ['A'] is then drawn there, and the whole
    text is read. *)
Example print_ZA :
  let r := print 0 0 "ZA" font_A (mkOptions (str "white") false) grid4 in
  r.1 = Normal true ∧
  w_journal r.2 = [Skipped "Z"%char 0; Drawn "A"%char 0 3 true] ∧
  dirtyIndicies (w_display r.2) = [1; 4; 5; 6].
Proof. repeat split; by vm_compute. Qed.

(** The printed ['A'] of the examples: [print] returns [true], [draw] is
    called once at column 0 and the cursor moves by [3 + 1]; the four lit
    dots, flat indices 1, 4, 5 and 6, are written. *)
Example print_A :
  let r := print 0 0 "A" font_A (mkOptions (str "white") false) grid4 in
  r.1 = Normal true ∧
  w_journal r.2 = [Drawn "A"%char 0 3 true] ∧
  cursor_after 0 (w_journal r.2) = 4 ∧
  dirtyIndicies (w_display r.2) = [1; 4; 5; 6] ∧
  font_glyphs (w_font r.2) !! "A" = Some (mkGlyph (rows glyph_A) (Some 3)).
Proof. repeat split; by vm_compute. Qed.

(** ** [rect] *)

Section rect_facts.

Context (d0 : display) (c : value) (s : string).
Hypothesis Hc : resolve_color d0 c = Normal (Some s).

Lemma akin_write d k : akin d0 d → akin d0 (write s d k).
Proof. done. Qed.

Lemma akin_writes ks : ∀ d, akin d0 d → akin d0 (foldl (write s) d ks).
Proof. induction ks as [|k ks IH]; intros d H; simpl; auto. Qed.

Lemma resolve_color_akin d : akin d0 d → resolve_color d c = Normal (Some s).
Proof.
  intros [_ Ho]. rewrite <- Hc. unfold resolve_color. by rewrite Ho.
Qed.

Lemma set_akin d i j :
  akin d0 d → set i j c d = (Normal (), write s d (j * dot_width d0 + i)).
Proof.
  intros H. rewrite (set_stores d i j c s (resolve_color_akin d H)).
  unfold write, flat. by destruct H as [-> _].
Qed.

(** A loop whose every turn stores [s] at the indices [f j] stores [s] at
    all of them, in order. *)
Lemma for_each_writes (f : Z → list Z) (body : Z → M ()) js :
  (∀ j d, akin d0 d → body j d = (Normal (), foldl (write s) d (f j))) →
  ∀ d, akin d0 d →
    for_each js body d = (Normal (), foldl (write s) d (js ≫= f)).
Proof.
  intros Hbody. induction js as [|j js IH]; intros d H; simpl; [done |].
  rewrite bind_unfold, (Hbody j d H), IH by by apply akin_writes.
  by rewrite foldl_app.
Qed.

Lemma rect_writes x y w h d :
  akin d0 d →
  rect x y w h c d =
    (Normal (), foldl (write s) d (rect_indices (dot_width d0) x y w h)).
Proof.
  intros H. unfold rect, rect_indices.
  apply (for_each_writes
           (λ i, j ← seqZ y h;
                 if (j =? y) || (j =? y + h - 1) || (i =? x)
                    || (i =? x + w - 1)
                 then [j * dot_width d0 + i] else [])); [| done].
  intros i d1 H1. apply for_each_writes; [| done].
  intros j d2 H2.
  destruct ((j =? y) || (j =? y + h - 1) || (i =? x) || (i =? x + w - 1)).
  - by apply set_akin.
  - done.
Qed.

Lemma writes_dirtyIndicies ks : ∀ d,
  dirtyIndicies (foldl (write s) d ks) = dirtyIndicies d ++ ks.
Proof.
  induction ks as [|k ks IH]; intros d; simpl.
  - by rewrite app_nil_r.
  - rewrite IH. simpl. by rewrite <- app_assoc.
Qed.

Lemma writes_cell ks : ∀ d k,
  cell (foldl (write s) d ks) k =
    if decide (k ∈ ks) then Some s else cell d k.
Proof.
  induction ks as [|k0 ks IH]; intros d k; simpl.
  - destruct (decide (k ∈ [])) as [H|]; [inversion H | done].
  - rewrite IH.
    destruct (decide (k ∈ ks)) as [Hin|Hnin].
    + rewrite decide_True; [done | by right].
    + destruct (decide (k = k0)) as [->|Hne].
      * rewrite decide_True by by left.
        unfold cell, get, write; simpl. apply lookup_insert_eq.
      * rewrite decide_False.
        -- unfold cell, get, write; simpl. by apply lookup_insert_ne.
        -- intros [?|?]%elem_of_cons; done.
Qed.

Lemma elem_of_rect_indices W x y w h k :
  k ∈ rect_indices W x y w h ↔
  ∃ i j, on_border x y w h i j ∧ k = j * W + i.
Proof.
  unfold rect_indices, on_border, in_box.
  rewrite list_elem_of_bind. split.
  - intros (i & (j & Hk & Hj%elem_of_seqZ)%list_elem_of_bind
              & Hi%elem_of_seqZ).
    destruct (_ || _) eqn:Hb in Hk; [| inversion Hk].
    apply list_elem_of_singleton in Hk as ->.
    exists i, j. repeat split; lia.
  - intros (i & j & ([Hi Hj] & Hb) & ->).
    exists i. split; [| apply elem_of_seqZ; lia].
    apply list_elem_of_bind. exists j. split; [| apply elem_of_seqZ; lia].
    assert ((j =? y) || (j =? y + h - 1) || (i =? x) || (i =? x + w - 1)
            = true) as ->.
    { rewrite !orb_true_iff, !Z.eqb_eq. tauto. }
    by left.
Qed.

End rect_facts.

(** C9, as stated, fails: on the 4 by 4 grid [rect(2, 0, 3, 3, 'blue')]
    paints the dot at column 0 of row 1 (flat index 4, reached as column 4
    of row 0), which is not on the border of the box, not even in it. *)
Lemma rect_border_counterexample :
  resolves_to grid4 (str "blue") "blue" ∧
  in_bounds grid4 0 1 ∧
  ¬ on_border 2 0 3 3 0 1 ∧
  cell grid4 (1 * dot_width grid4 + 0) = Some "rgb(50,50,50)" ∧
  cell (rect 2 0 3 3 (str "blue") grid4).2 (1 * dot_width grid4 + 0)
  = Some "blue".
Proof.
  split; [apply resolves_string |].
  split; [unfold in_bounds; simpl; lia |].
  split; [unfold on_border, in_box; lia |].
  split; by vm_compute.
Qed.

(** C9, amended.  When the box [[x, x + w) × [y, y + h)] lies within the
    grid and the colour is valid, standing for the fill style [s],
    [rect(x, y, w, h, c)] returns normally; every dot on the border of the
    box then holds [s], and every other dot of the grid, the interior of the
    box included, keeps its colour. *)
Theorem rect_inside_grid (d : display) (x y w h : Z) (c : value) (s : string) :
  0 ≤ x → x + w ≤ dot_width d →
  0 ≤ y → y + h ≤ dot_height d →
  resolves_to d c s →
  ∃ d', rect x y w h c d = (Normal (), d') ∧
    ∀ i j, in_bounds d i j →
      (on_border x y w h i j → cell d' (j * dot_width d + i) = Some s) ∧
      (¬ on_border x y w h i j →
       cell d' (j * dot_width d + i) = cell d (j * dot_width d + i)).
Proof.
  intros Hx Hxw Hy Hyh Hc.
  apply resolve_color_valid in Hc.
  eexists. split; [by apply (rect_writes d c s Hc) |].
  intros i j Hin. rewrite writes_cell.
  split; intros Hb.
  - rewrite decide_True; [done |].
    apply elem_of_rect_indices. eauto.
  - rewrite decide_False; [done |].
    intros (i' & j' & Hb' & Heq)%elem_of_rect_indices. apply Hb.
    assert (Hin' : in_bounds d i' j').
    { destruct Hb' as [[Hi Hj] _]. unfold in_bounds. lia. }
    destruct (flat_inj d i j i' j' Hin Hin' Heq) as [-> ->]. done.
Qed.

(** The example [rect(0, 0, 3, 3, 'blue')] on the 4 by 4 grid. *)
Lemma rect_inside_grid_witness :
  ∃ d', rect 0 0 3 3 (str "blue") grid4 = (Normal (), d') ∧
    ∀ i j, in_bounds grid4 i j →
      (on_border 0 0 3 3 i j → cell d' (j * dot_width grid4 + i) = Some "blue") ∧
      (¬ on_border 0 0 3 3 i j →
       cell d' (j * dot_width grid4 + i) = cell grid4 (j * dot_width grid4 + i)).
Proof.
  apply (rect_inside_grid grid4 0 0 3 3 (str "blue") "blue").
  - lia.
  - simpl; lia.
  - lia.
  - simpl; lia.
  - apply resolves_string.
Defined.

(** The rectangle of the examples: [rect(0, 0, 3, 3, 'blue')] on the 4 by 4
    grid writes the eight indices 0, 1, 2, 4, 6, 8, 9, 10 and leaves the
    centre, index 5, at the off colour. *)
Example rect_3_by_3 :
  let d' := (rect 0 0 3 3 (str "blue") grid4).2 in
  dirtyIndicies d' = [0; 4; 8; 1; 9; 2; 6; 10] ∧
  cell d' <$> [0; 1; 2; 4; 6; 8; 9; 10] = replicate 8 (Some "blue") ∧
  cell d' <$> [3; 5; 7; 11; 12; 13; 14; 15]
  = replicate 8 (Some "rgb(50,50,50)").
Proof. repeat split; by vm_compute. Qed.

(** The filled square of the examples: [fill(0, 0, 2, 2, 'red')] on the 4 by
    4 grid writes the indices 0, 1, 4 and 5 and leaves the others at the off
    colour. *)
Example fill_2_by_2 :
  let d' := (fill 0 0 2 2 (str "red") grid4).2 in
  dirtyIndicies d' = [0; 4; 1; 5] ∧
  cell d' <$> [0; 1; 4; 5] = replicate 4 (Some "red") ∧
  cell d' <$> [2; 3; 6; 7; 8; 9; 10; 11; 12; 13; 14; 15]
  = replicate 12 (Some "rgb(50,50,50)").
Proof. repeat split; by vm_compute. Qed.

(** * Further properties of the code *)

(** ** [clear] and the constructor *)

Section clear_facts.

(** Storing [v] at keys below the length, one after the other. *)
Lemma puts_below v ks : ∀ a,
  (∀ k, k ∈ ks → k < arr_length a) →
  arr_length (foldl (λ a i, put a i v) a ks) = arr_length a ∧
  ∀ k, get (foldl (λ a i, put a i v) a ks) k =
         if decide (k ∈ ks) then Some v else get a k.
Proof.
  induction ks as [|k0 ks IH]; intros a Hlt; cbn [foldl].
  { split; [done |]. intros k. by rewrite decide_False by by inversion 1. }
  assert (Hlen : arr_length (put a k0 v) = arr_length a).
  { unfold put; simpl.
    assert ((arr_length a <=? k0) = false) as ->.
    { apply Z.leb_gt, Hlt. by left. }
    by rewrite andb_false_r. }
  destruct (IH (put a k0 v)) as [IHlen IHget].
  { intros k Hk. rewrite Hlen. apply Hlt. by right. }
  split; [congruence |]. intros k. rewrite IHget.
  destruct (decide (k ∈ ks)) as [Hin|Hnin].
  - rewrite decide_True; [done | by right].
  - destruct (decide (k = k0)) as [->|Hne].
    + rewrite decide_True by by left. unfold get, put; simpl.
      apply lookup_insert_eq.
    + rewrite decide_False.
      * unfold get, put; simpl. by apply lookup_insert_ne.
      * intros [?|?]%elem_of_cons; done.
Qed.

Lemma clear_cell d k :
  cell (clear d) k =
    if decide (0 ≤ k < arr_length (data d)) then Some (off d) else cell d k.
Proof.
  unfold clear, cell; simpl.
  destruct (puts_below (off d) (seqZ 0 (arr_length (data d))) (data d))
    as [_ Hget].
  { intros i Hi%elem_of_seqZ. lia. }
  rewrite Hget.
  destruct (decide (0 ≤ k < arr_length (data d))) as [Hk|Hk].
  - rewrite decide_True; [done | apply elem_of_seqZ; lia].
  - rewrite decide_False; [done |]. intros Hi%elem_of_seqZ. lia.
Qed.

Lemma clear_length d : arr_length (data (clear d)) = arr_length (data d).
Proof.
  unfold clear; simpl.
  destruct (puts_below (off d) (seqZ 0 (arr_length (data d))) (data d))
    as [Hlen _]; [| done].
  intros i Hi%elem_of_seqZ. lia.
Qed.

End clear_facts.

(** X1.  [clear] stores the off colour in every entry of [data] below its
    length and in no other, raises the flag, and leaves the length of
    [data], the pending [dirtyIndicies] and the setup as they were. *)
Theorem clear_resets (d : display) :
  (∀ k, 0 ≤ k < arr_length (data d) → cell (clear d) k = Some (off d)) ∧
  (∀ k, ¬ (0 ≤ k < arr_length (data d)) → cell (clear d) k = cell d k) ∧
  dirty (clear d) = true ∧
  dirtyIndicies (clear d) = dirtyIndicies d ∧
  arr_length (data (clear d)) = arr_length (data d) ∧
  same_setup d (clear d).
Proof.
  split; [| split].
  - intros k Hk. rewrite clear_cell. by rewrite decide_True.
  - intros k Hk. rewrite clear_cell. by rewrite decide_False.
  - repeat split. apply clear_length.
Qed.

(** X2.  With a dot count [dot_width * dot_height] in [0, 2^32) the
    constructor returns a display of [canvas.width / dot_size] by
    [canvas.height / dot_size] dots (rounded down, [dot_size] defaulting to
    20 when absent or 0) whose every dot holds the off colour, with the flag
    up, nothing pending and nothing drawn yet; with any other dot count it
    throws a [RangeError]. *)
Theorem DMD_initial (cw ch : Z) (cfg : config) :
  let ds := num_or (cfg_dot_size cfg) 20 in
  (0 ≤ (cw / ds) * (ch / ds) < 2 ^ 32 →
   ∃ d, DMD cw ch cfg = Normal d ∧
        dot_width d = cw / ds ∧ dot_height d = ch / ds ∧
        off d = str_or (cfg_off cfg) "rgb(50,50,50)" ∧
        dirty d = true ∧ dirtyIndicies d = [] ∧ context d = [] ∧
        grid_ok d ∧
        ∀ x y, in_bounds d x y → cell d (y * dot_width d + x) = Some (off d)) ∧
  (¬ (0 ≤ (cw / ds) * (ch / ds) < 2 ^ 32) →
   DMD cw ch cfg = Throw RangeError).
Proof.
  intros ds. unfold DMD, new_array. fold ds. split; intros Hn.
  - assert ((0 <=? cw / ds * (ch / ds)) && (cw / ds * (ch / ds) <? 2 ^ 32)
            = true) as ->.
    { apply andb_true_iff. split; [apply Z.leb_le | apply Z.ltb_lt]; lia. }
    eexists. split; [reflexivity |].
    assert (Hcell : ∀ k, 0 ≤ k < cw / ds * (ch / ds) →
              cell (clear (mkDisplay cw ch ds (cw / ds) (ch / ds)
                      (num_or (cfg_refresh cfg) 50)
                      (str_or (cfg_drawMode cfg) "circle")
                      (str_or (cfg_background cfg) "rgb(60,60,60)")
                      (str_or (cfg_off cfg) "rgb(50,50,50)")
                      (mkArray ∅ (cw / ds * (ch / ds))) true [] [])) k
              = Some (str_or (cfg_off cfg) "rgb(50,50,50)")).
    { intros k Hk. rewrite clear_cell. simpl. by rewrite decide_True. }
    repeat split.
    + apply clear_length.
    + intros k Hk. rewrite Hcell; eauto.
    + intros x y Hin. apply Hcell. by apply flat_range in Hin.
  - assert ((0 <=? cw / ds * (ch / ds)) && (cw / ds * (ch / ds) <? 2 ^ 32)
            = false) as ->; [| done].
    apply andb_false_iff.
    destruct (Z_lt_le_dec (cw / ds * (ch / ds)) 0).
    + left. apply Z.leb_gt. lia.
    + right. apply Z.ltb_ge. lia.
Qed.

(** The display of the examples. *)
Lemma DMD_initial_witness :
  ∃ d, DMD 4 4 (mkConfig (Some 1) None None None None) = Normal d ∧
       dot_width d = 4 / 1 ∧ dot_height d = 4 / 1 ∧
       off d = "rgb(50,50,50)" ∧
       dirty d = true ∧ dirtyIndicies d = [] ∧ context d = [] ∧
       grid_ok d ∧
       ∀ x y, in_bounds d x y → cell d (y * dot_width d + x) = Some (off d).
Proof.
  destruct (DMD_initial 4 4 (mkConfig (Some 1) None None None None))
    as [H _].
  apply H. change (0 ≤ 16 < 2 ^ 32). lia.
Defined.

(** A cell of the cleared 4 by 4 grid. *)
Lemma clear_resets_witness : cell (clear grid4) 5 = Some (off grid4).
Proof.
  destruct (clear_resets grid4) as [H _]. apply H.
  change (0 ≤ 5 < 16). lia.
Defined.

(** ** [painter] and [updateLed] *)

Section painter_trace.

Lemma emit_emit ops1 ops2 d :
  emit ops2 (emit ops1 d) = emit (ops1 ++ ops2) d.
Proof. unfold emit, with_context; simpl. by rewrite app_assoc. Qed.

Lemma emit_nil d : emit [] d = d.
Proof. unfold emit, with_context. rewrite app_nil_r. by destruct d. Qed.

Lemma led_ops_emit d c flush i ops :
  led_ops (emit ops d) c flush i = led_ops d c flush i.
Proof. reflexivity. Qed.

(** [updateLed] only talks to the context. *)
Lemma updateLed_emit c i flush d :
  updateLed c i flush d = emit (led_ops d c flush i) d.
Proof.
  unfold updateLed, led_ops.
  destruct flush, c; simpl; rewrite ?emit_emit; reflexivity.
Qed.

Lemma repaint_emit c flush (l : list Z) : ∀ d,
  foldl (λ s i, updateLed c i flush s) d l
  = emit (l ≫= led_ops d c flush) d.
Proof.
  induction l as [|i l IH]; intros d; simpl.
  - by rewrite emit_nil.
  - by rewrite IH, updateLed_emit, emit_emit.
Qed.

Lemma emit_same_setup ops d : same_setup d (emit ops d).
Proof. by repeat split. Qed.

Lemma painter_keeps_grid_setup d :
  dot_width (painter d) = dot_width d ∧ dot_height (painter d) = dot_height d.
Proof.
  unfold painter.
  destruct (negb (dirty d) && _); [done |].
  destruct (dirty d) eqn:Hd; simpl; rewrite ?Hd, repaint_emit; done.
Qed.

End painter_trace.

(** X3.  A tick of [painter] leaves the display exactly as it was, with no
    call on the context, if and only if the flag is down and no index is
    pending. *)
Theorem painter_idle_iff (d : display) :
  painter d = d ↔ dirty d = false ∧ dirtyIndicies d = [].
Proof.
  split.
  - intros H. pose proof (painter_clears_flag d) as Hf.
    pose proof (painter_dirtyIndicies d) as Hi.
    rewrite H in Hf, Hi. rewrite Hf in Hi. done.
  - intros [Hf Hi]. unfold painter. by rewrite Hf, Hi.
Qed.

(** X4.  Whatever the state, two ticks of [painter] in a row leave the flag
    down and no index pending, and a third tick does nothing at all. *)
Theorem painter_settles (d : display) :
  dirty (painter (painter d)) = false ∧
  dirtyIndicies (painter (painter d)) = [] ∧
  painter (painter (painter d)) = painter (painter d).
Proof.
  assert (H2 : dirty (painter (painter d)) = false ∧
               dirtyIndicies (painter (painter d)) = []).
  { split; [apply painter_clears_flag |].
    by rewrite painter_dirtyIndicies, painter_clears_flag. }
  destruct H2 as [Hf Hi]. repeat split; try done.
  unfold painter at 1. by rewrite Hf, Hi.
Qed.

(** X5.  [painter] reads the grid and never writes it: every entry of
    [data], its length and the setup of the display are the same after a
    tick. *)
Theorem painter_keeps_grid (d : display) :
  (∀ k, cell (painter d) k = cell d k) ∧
  arr_length (data (painter d)) = arr_length (data d) ∧
  same_setup d (painter d).
Proof.
  split; [| split].
  - intros k. unfold cell. by rewrite painter_data.
  - by rewrite painter_data.
  - unfold painter.
    destruct (negb (dirty d) && _); [by repeat split |].
    destruct (dirty d) eqn:Hd; simpl; rewrite ?Hd, repaint_emit;
      by repeat split.
Qed.

(** X6.  What a tick of [painter] draws, on a display with [dot_width]
    other than 0.  With the flag up: the background over the whole canvas,
    then each entry of [data] from index 0 to its length, once, in its
    stored style and without erasing its square first.  With the flag down:
    for each pending index, in the order pushed and as often as pushed, its
    square erased to the background and the dot drawn in its stored
    style. *)
Theorem painter_trace_exact (d : display) :
  dot_width d ≠ 0 →
  let circles := bool_decide (drawMode d = "circle") in
  context (painter d) =
    context d ++
    if dirty d
    then [SetFillStyle (Some (background d));
          FillRect 0 0 (canvas_width d) (canvas_height d)] ++
         (seqZ 0 (arr_length (data d)) ≫= led_ops d circles false)
    else dirtyIndicies d ≫= led_ops d circles true.
Proof.
  intros _ circles. unfold painter.
  destruct (dirty d) eqn:Hd; simpl; rewrite ?Hd; simpl.
  - rewrite repaint_emit. simpl. by rewrite <- app_assoc.
  - destruct (Z.of_nat (length (dirtyIndicies d)) =? 0) eqn:E; simpl.
    + apply Z.eqb_eq in E.
      assert (dirtyIndicies d = []) as -> by (apply nil_length_inv; lia).
      by rewrite app_nil_r.
    + by rewrite repaint_emit.
Qed.

(** A sparse tick on the 4 by 4 grid with index 5 pending. *)
Lemma painter_trace_exact_witness :
  let d := with_dirty false (set 1 1 (str "red") grid4).2 in
  context (painter d) =
    [SetFillStyle (Some "rgb(60,60,60)"); FillRect 1 1 1 1;
     SetFillStyle (Some "red"); BeginPath; Arc 1 1 1; Fill].
Proof.
  intros d. rewrite (painter_trace_exact d); [reflexivity |].
  simpl. lia.
Defined.

(** ** [fill] *)

Section fill_facts.

Context (d0 : display) (c : value) (s : string).
Hypothesis Hc : resolve_color d0 c = Normal (Some s).

Lemma fill_writes x y w h d :
  akin d0 d →
  fill x y w h c d =
    (Normal (), foldl (write s) d (fill_indices (dot_width d0) x y w h)).
Proof.
  intros H. unfold fill, fill_indices.
  apply (for_each_writes d0 s
           (λ i, j ← seqZ y h; [j * dot_width d0 + i])); [| done].
  intros i d1 H1. apply (for_each_writes d0 s); [| done].
  intros j d2 H2. by apply (set_akin d0 c s Hc).
Qed.

Lemma elem_of_fill_indices W x y w h k :
  k ∈ fill_indices W x y w h ↔ ∃ i j, in_box x y w h i j ∧ k = j * W + i.
Proof.
  unfold fill_indices, in_box. rewrite list_elem_of_bind. split.
  - intros (i & (j & Hk & Hj%elem_of_seqZ)%list_elem_of_bind
              & Hi%elem_of_seqZ).
    apply list_elem_of_singleton in Hk as ->.
    exists i, j. repeat split; lia.
  - intros (i & j & [Hi Hj] & ->).
    exists i. split; [| apply elem_of_seqZ; lia].
    apply list_elem_of_bind. exists j.
    split; [by left | apply elem_of_seqZ; lia].
Qed.

End fill_facts.

(** X7.  When the box [[x, x + w) × [y, y + h)] lies within the grid and the
    colour is valid, standing for the fill style [s], [fill] returns
    normally; every dot of the box then holds [s], every dot outside it
    keeps its colour, and one index per dot of the box, column by column,
    has been pushed on [dirtyIndicies]. *)
Theorem fill_inside_grid (d : display) (x y w h : Z) (c : value) (s : string) :
  0 ≤ x → x + w ≤ dot_width d →
  0 ≤ y → y + h ≤ dot_height d →
  resolves_to d c s →
  ∃ d', fill x y w h c d = (Normal (), d') ∧
    dirtyIndicies d' =
      dirtyIndicies d ++ fill_indices (dot_width d) x y w h ∧
    ∀ i j, in_bounds d i j →
      (in_box x y w h i j → cell d' (j * dot_width d + i) = Some s) ∧
      (¬ in_box x y w h i j →
       cell d' (j * dot_width d + i) = cell d (j * dot_width d + i)).
Proof.
  intros Hx Hxw Hy Hyh Hc.
  apply resolve_color_valid in Hc.
  eexists. split; [by apply (fill_writes d c s Hc) |].
  split; [apply writes_dirtyIndicies |].
  intros i j Hin. rewrite writes_cell.
  split; intros Hb.
  - rewrite decide_True; [done |].
    apply elem_of_fill_indices. eauto.
  - rewrite decide_False; [done |].
    intros (i' & j' & Hb' & Heq)%elem_of_fill_indices. apply Hb.
    assert (Hin' : in_bounds d i' j').
    { destruct Hb' as [Hi Hj]. unfold in_bounds. lia. }
    destruct (flat_inj d i j i' j' Hin Hin' Heq) as [-> ->]. done.
Qed.

(** The example [fill(0, 0, 2, 2, 'red')] on the 4 by 4 grid. *)
Lemma fill_inside_grid_witness :
  ∃ d', fill 0 0 2 2 (str "red") grid4 = (Normal (), d') ∧
    dirtyIndicies d' =
      dirtyIndicies grid4 ++ fill_indices (dot_width grid4) 0 0 2 2 ∧
    ∀ i j, in_bounds grid4 i j →
      (in_box 0 0 2 2 i j → cell d' (j * dot_width grid4 + i) = Some "red") ∧
      (¬ in_box 0 0 2 2 i j →
       cell d' (j * dot_width grid4 + i) = cell grid4 (j * dot_width grid4 + i)).
Proof.
  apply (fill_inside_grid grid4 0 0 2 2 (str "red") "red").
  - lia.
  - simpl; lia.
  - lia.
  - simpl; lia.
  - apply resolves_string.
Defined.

(** ** Colours of another type *)

Section other_type_facts.

Context (c : value).
Hypothesis Ho : typeof c ≠ TObject.
Hypothesis Hu : typeof c ≠ TUndefined.
Hypothesis Hs : typeof c ≠ TString.

Lemma set_skips x y d : set x y c d = (Normal (), d).
Proof.
  unfold set, resolve_color.
  destruct (decide (typeof c = TObject)); [done |].
  destruct (decide (typeof c = TUndefined)); [done |].
  by destruct (decide (typeof c ≠ TString)).
Qed.


Lemma draw_row_skips bits : ∀ px py hp d,
  (draw_row px py bits c false hp d).2 = d.
Proof.
  induction bits as [|b bits IH]; intros px py hp d; simpl; [done |].
  destruct ((0 <=? px) && (px <? dot_width d)); [| apply IH].
  destruct (b =? 1); simpl; [| apply IH].
  rewrite bind_unfold, set_skips. apply IH.
Qed.

Lemma draw_rows_skips shape : ∀ x py hp d,
  (draw_rows x py shape c false hp d).2 = d.
Proof.
  induction shape as [|r shape IH]; intros x py hp d; simpl; [done |].
  destruct ((0 <=? py) && (py <? dot_height d)); [| apply IH].
  destruct r as [bits | n]; [| apply IH].
  rewrite bind_unfold.
  pose proof (draw_row_skips bits x py hp d) as Hrow.
  destruct (draw_row x py bits c false hp d) as [[hp'|e] d1];
    simpl in Hrow; subst d1; [apply IH | done].
Qed.

End other_type_facts.



(** X9.  With [fill] false and a colour whose type is none of ['object'],
    ['undefined'] and ['string'], [draw] leaves the whole display as it was,
    and yet returns [true] exactly when some lit bit of the shape lies over
    a dot of the grid. *)
Theorem draw_other_type_reports (d : display) (x y : Z) (shape : list row)
    (c : value) :
  typeof c ≠ TObject → typeof c ≠ TUndefined → typeof c ≠ TString →
  (draw x y shape (mkOptions c false) d).2 = d ∧
  ∃ b, (draw x y shape (mkOptions c false) d).1 = Normal b ∧
       (b = true ↔ lit_plotted d x y shape).
Proof.
  intros Ho Hu Hs. split; [by apply draw_rows_skips |].
  unfold draw; simpl. rewrite draw_rows_result.
  assert (unjoinable c = false) as ->.
  { destruct c as [[]| | |]; simpl in *; congruence. }
  simpl. eexists. split; [reflexivity |].
  rewrite shape_any_spec. unfold lit_plotted, in_bounds.
  split.
  - intros (i & j & b & Hb & Hin & HP). rewrite orb_false_r in HP.
    apply Z.eqb_eq in HP as ->. eauto.
  - intros (i & j & Hb & Hin). exists i, j, 1. by rewrite orb_false_r.
Qed.

(** The glyph of ['A'] drawn at the origin in the colour [5]. *)
Lemma draw_other_type_reports_witness :
  let shape := [RowArr [0; 1; 0]; RowArr [1; 1; 1]] in
  (draw 0 0 shape (mkOptions (num 5) false) grid4).2 = grid4 ∧
  ∃ b, (draw 0 0 shape (mkOptions (num 5) false) grid4).1 = Normal b ∧
       (b = true ↔ lit_plotted grid4 0 0 shape).
Proof.
  intros shape.
  apply (draw_other_type_reports grid4 0 0 shape (num 5)); discriminate.
Defined.

(** ** [draw]: errors and stored styles *)

(** X10.  [draw] throws, a [TypeError], exactly when the colour is [null] or
    an object without [join] and some lit bit of the shape lies over a dot
    of the grid; a shape drawn wholly off the grid, or without a lit bit,
    never throws, whatever the colour. *)
Theorem draw_throws_iff (d : display) (x y : Z) (shape : list row)
    (o : options) (e : exn) :
  (draw x y shape o d).1 = Throw e ↔
  e = TypeError ∧ unjoinable (opt_color o) = true ∧ lit_plotted d x y shape.
Proof.
  unfold draw. rewrite draw_rows_result.
  assert (Hlit :
    shape_any (λ b, b =? 1) (dot_width d) (dot_height d) x y shape = true ↔
    lit_plotted d x y shape).
  { rewrite shape_any_spec. unfold lit_plotted, in_bounds. split.
    - intros (i & j & b & Hb & Hin & ->%Z.eqb_eq). eauto.
    - intros (i & j & Hb & Hin). by exists i, j, 1. }
  destruct (unjoinable (opt_color o)); simpl.
  - destruct (shape_any _ _ _ _ _ _) eqn:E.
    + split; [intros [= <-] | by intros (-> & _ & _)].
      repeat split. by apply Hlit.
    + split; [done |]. intros (_ & _ & H%Hlit). congruence.
  - split; [done | by intros (_ & ? & _)].
Qed.

Section draw_styles.

Context (d0 : display) (c : value) (s : string) (forceFill : bool).
Hypothesis Hc : resolve_color d0 c = Normal (Some s).

Lemma valid_joinable : unjoinable c = false.
Proof. by destruct c as [[]| | |]. Qed.

(** The call of [set] under the bit [b]. *)
Lemma set_bit d px py b :
  akin d0 d →
  set px py (if b =? 1 then c else undefined) d =
    (Normal (), write (bit_style d0 s b) d (flat d px py)).
Proof.
  intros [Hw Ho]. apply set_stores. unfold bit_style.
  destruct (b =? 1).
  - rewrite <- Hc. unfold resolve_color. by rewrite Ho.
  - unfold resolve_color; simpl. by rewrite Ho.
Qed.

Lemma draw_row_akin bits px py hp d :
  akin d0 d → akin d0 (draw_row px py bits c forceFill hp d).2.
Proof.
  intros [Hw Ho].
  destruct (draw_row_effects bits px py c forceFill hp d) as (a & E & _).
  split; [by rewrite (ext_width _ _ _ E) | by rewrite (ext_off _ _ _ E)].
Qed.

Lemma draw_row_paints bits : ∀ px py hp d (j : nat) b,
  akin d0 d →
  bits !! j = Some b →
  0 ≤ px + Z.of_nat j < dot_width d →
  b = 1 ∨ forceFill = true →
  cell (draw_row px py bits c forceFill hp d).2 (flat d (px + Z.of_nat j) py)
  = Some (bit_style d0 s b).
Proof.
  induction bits as [|b0 bits IH]; intros px py hp d j b Hak Hj Hpx Hb;
    [done |].
  destruct j as [|j]; simpl in Hj.
  - (* the head of the row: written now, out of reach of the rest *)
    injection Hj as ->. simpl.
    assert ((0 <=? px) && (px <? dot_width d) = true) as ->.
    { apply andb_true_iff. split; [apply Z.leb_le | apply Z.ltb_lt]; lia. }
    assert ((b =? 1) || forceFill = true) as ->.
    { destruct Hb as [-> | ->]; [done | apply orb_true_r]. }
    rewrite bind_unfold, (set_bit d px py b Hak).
    destruct (draw_row_effects bits (px + 1) py c forceFill true
                (write (bit_style d0 s b) d (flat d px py)))
      as (a & E & Ha).
    replace (px + Z.of_nat 0) with px by lia.
    rewrite (ext_frame _ _ _ E).
    + unfold cell, get, write; simpl. apply lookup_insert_eq.
    + intros Hk. destruct (Ha _ Hk) as (j' & b' & _ & _ & Heq & _).
      unfold flat in Heq; simpl in Heq. lia.
  - (* further along: whatever the head did, the geometry is the same *)
    replace (px + Z.of_nat (S j)) with (px + 1 + Z.of_nat j) in * by lia.
    assert (Hnext : ∀ hp' d1,
      akin d0 d1 → dot_width d1 = dot_width d →
      cell (draw_row (px + 1) py bits c forceFill hp' d1).2
           (flat d (px + 1 + Z.of_nat j) py)
      = Some (bit_style d0 s b)).
    { intros hp' d1 Hak1 Hw1.
      replace (flat d (px + 1 + Z.of_nat j) py)
        with (flat d1 (px + 1 + Z.of_nat j) py)
        by (unfold flat; by rewrite Hw1).
      apply IH; try done. by rewrite Hw1. }
    simpl.
    destruct ((0 <=? px) && (px <? dot_width d)); [| by apply Hnext].
    destruct ((b0 =? 1) || forceFill); [| by apply Hnext].
    rewrite bind_unfold, (set_bit d px py b0 Hak). by apply Hnext.
Qed.

Lemma draw_rows_paints shape : ∀ x py hp d (i j : nat) b,
  akin d0 d →
  bit_at shape i j = Some b →
  in_bounds d (x + Z.of_nat j) (py + Z.of_nat i) →
  b = 1 ∨ forceFill = true →
  cell (draw_rows x py shape c forceFill hp d).2
       (flat d (x + Z.of_nat j) (py + Z.of_nat i))
  = Some (bit_style d0 s b).
Proof.
  induction shape as [|r shape IH]; intros x py hp d i j b Hak Hbit Hin Hb;
    [done |].
  destruct i as [|i].
  - (* the first row: written by the inner loop, out of reach of the rows
       below *)
    unfold bit_at in Hbit; simpl in Hbit.
    destruct r as [bits | n]; [| done].
    destruct Hin as [Hx Hy]. replace (py + Z.of_nat 0) with py in * by lia.
    simpl.
    assert ((0 <=? py) && (py <? dot_height d) = true) as ->.
    { apply andb_true_iff. split; [apply Z.leb_le | apply Z.ltb_lt]; lia. }
    rewrite bind_unfold.
    pose proof (draw_row_paints bits x py hp d j b Hak Hbit Hx Hb) as Hrow.
    pose proof (draw_row_result bits x py c forceFill hp d) as Hres.
    rewrite valid_joinable in Hres; simpl in Hres.
    destruct (draw_row_effects bits x py c forceFill hp d) as (a0 & E0 & _).
    destruct (draw_row x py bits c forceFill hp d) as [[hp'|e] d1];
      simpl in *; [| done].
    destruct (draw_rows_effects shape x (py + 1) c forceFill hp' d1)
      as (a & E & Ha).
    rewrite (ext_frame _ _ _ E); [done |].
    intros Hk. destruct (Ha _ Hk) as (i' & j' & b' & _ & Hin' & Heq & _).
    rewrite (ext_width _ _ _ E0) in Heq.
    assert (Hin1 : in_bounds d (x + Z.of_nat j') (py + 1 + Z.of_nat i')).
    { unfold in_bounds in *.
      by rewrite <- (ext_width _ _ _ E0), <- (ext_height _ _ _ E0). }
    assert (Hin0 : in_bounds d (x + Z.of_nat j) py) by done.
    destruct (flat_inj d _ _ _ _ Hin0 Hin1 Heq). lia.
  - (* a row below: whatever the first row did, the geometry is the same *)
    replace (py + Z.of_nat (S i)) with (py + 1 + Z.of_nat i) in * by lia.
    assert (Hbit' : bit_at shape i j = Some b) by done.
    assert (Hnext : ∀ hp' d1,
      akin d0 d1 → dot_width d1 = dot_width d →
      dot_height d1 = dot_height d →
      cell (draw_rows x (py + 1) shape c forceFill hp' d1).2
           (flat d (x + Z.of_nat j) (py + 1 + Z.of_nat i))
      = Some (bit_style d0 s b)).
    { intros hp' d1 Hak1 Hw1 Hh1.
      replace (flat d (x + Z.of_nat j) (py + 1 + Z.of_nat i))
        with (flat d1 (x + Z.of_nat j) (py + 1 + Z.of_nat i))
        by (unfold flat; by rewrite Hw1).
      apply IH; try done. unfold in_bounds in *. by rewrite Hw1, Hh1. }
    simpl.
    destruct ((0 <=? py) && (py <? dot_height d)); [| by apply Hnext].
    destruct r as [bits | n]; [| by apply Hnext].
    rewrite bind_unfold.
    pose proof (draw_row_result bits x py c forceFill hp d) as Hres.
    rewrite valid_joinable in Hres; simpl in Hres.
    pose proof (draw_row_akin bits x py hp d Hak) as Hak1.
    destruct (draw_row_effects bits x py c forceFill hp d) as (a0 & E0 & _).
    destruct (draw_row x py bits c forceFill hp d) as [[hp'|e] d1];
      simpl in *; [| done].
    apply Hnext; [done | apply (ext_width _ _ _ E0)
                 | apply (ext_height _ _ _ E0)].
Qed.

End draw_styles.

(** X11.  With a valid colour standing for the fill style [s], after [draw]
    every dot of the grid lying under a lit bit of the shape holds [s], and
    with [fill] set every dot lying under any other bit holds the off
    colour: no dot under the shape is left as it was. *)
Theorem draw_stores_styles (d : display) (x y : Z) (shape : list row)
    (o : options) (s : string) (i j : nat) (b : Z) :
  resolves_to d (opt_color o) s →
  bit_at shape i j = Some b →
  in_bounds d (x + Z.of_nat j) (y + Z.of_nat i) →
  b = 1 ∨ opt_fill o = true →
  cell (draw x y shape o d).2 ((y + Z.of_nat i) * dot_width d + (x + Z.of_nat j))
  = Some (if b =? 1 then s else off d).
Proof.
  intros Hc Hbit Hin Hb. apply resolve_color_valid in Hc.
  by apply (draw_rows_paints d (opt_color o) s (opt_fill o) Hc).
Qed.

(** The glyph of ['A'] drawn with [fill] at the origin: the dot under its
    first bit, a 0, is set to the off colour. *)
Lemma draw_stores_styles_witness :
  let shape := [RowArr [0; 1; 0]; RowArr [1; 1; 1]] in
  let o := mkOptions (str "white") true in
  cell (draw 0 0 shape o grid4).2
    ((0 + Z.of_nat 0) * dot_width grid4 + (0 + Z.of_nat 0))
  = Some (if 0 =? 1 then "white" else off grid4).
Proof.
  intros shape o.
  apply (draw_stores_styles grid4 0 0 shape o "white" 0 0 0).
  - apply resolves_string.
  - reflexivity.
  - unfold in_bounds; simpl; lia.
  - by right.
Defined.

(** ** The grid stays whole *)

Section grid_facts.

Lemma set_grid_ok d x y c :
  grid_ok d → in_bounds d x y → grid_ok (set x y c d).2.
Proof.
  intros [Hlen Hcells] Hin. apply flat_range in Hin.
  unfold set. destruct (resolve_color d c) as [[s|]|e]; simpl; try done.
  split; simpl.
  - unfold flat.
    assert ((arr_length (data d) <=? y * dot_width d + x) = false) as ->.
    { apply Z.leb_gt. lia. }
    by rewrite andb_false_r.
  - intros k Hk. unfold cell, get; simpl.
    destruct (decide (k = flat d x y)) as [->|Hne].
    + rewrite lookup_insert_eq. eauto.
    + rewrite lookup_insert_ne by done. by apply Hcells.
Qed.

Lemma draw_row_grid_ok bits : ∀ px py color forceFill hp d,
  0 ≤ py < dot_height d →
  grid_ok d → grid_ok (draw_row px py bits color forceFill hp d).2.
Proof.
  induction bits as [|b bits IH]; intros px py color forceFill hp d Hpy Hok;
    simpl; [done |].
  destruct ((0 <=? px) && (px <? dot_width d)) eqn:Hin; [| by apply IH].
  apply andb_true_iff in Hin as [H1%Z.leb_le H2%Z.ltb_lt].
  destruct ((b =? 1) || forceFill); [| by apply IH].
  rewrite bind_unfold.
  pose proof (set_grid_ok d px py (if b =? 1 then color else undefined) Hok)
    as Hset.
  destruct (set_extends px py (if b =? 1 then color else undefined) d)
    as (a & E & _).
  destruct (set px py (if b =? 1 then color else undefined) d)
    as [[[]|e] d1]; simpl in *.
  - apply IH; [by rewrite (ext_height _ _ _ E) | by apply Hset].
  - by apply Hset.
Qed.

Lemma draw_rows_grid_ok shape : ∀ x py color forceFill hp d,
  grid_ok d → grid_ok (draw_rows x py shape color forceFill hp d).2.
Proof.
  induction shape as [|r shape IH]; intros x py color forceFill hp d Hok;
    simpl; [done |].
  destruct ((0 <=? py) && (py <? dot_height d)) eqn:Hin; [| by apply IH].
  apply andb_true_iff in Hin as [H1%Z.leb_le H2%Z.ltb_lt].
  destruct r as [bits | n]; [| by apply IH].
  rewrite bind_unfold.
  pose proof (draw_row_grid_ok bits x py color forceFill hp d
                (conj H1 H2) Hok) as Hrow.
  destruct (draw_row x py bits color forceFill hp d) as [[hp'|e] d1];
    simpl in *; [by apply IH | done].
Qed.

Lemma print_loop_grid_ok y o text : ∀ currentX printed w,
  grid_ok (w_display w) →
  grid_ok (w_display (print_loop y text o currentX printed w).2).
Proof.
  induction text as [|c text IH]; intros currentX printed w Hok; simpl;
    [done |].
  destruct (currentX <=? dot_width (w_display w)); [| done].
  destruct (font_glyphs (w_font w) !! key c) as [g|]; [| by apply IH].
  pose proof (draw_rows_grid_ok
                (rows (if lacks_width g then updateFontData g else g))
                currentX y (opt_color o) (opt_fill o) false (w_display w) Hok)
    as Hdraw.
  fold (draw currentX y (rows (if lacks_width g then updateFontData g else g))
          o (w_display w)) in Hdraw.
  destruct (draw currentX y _ o (w_display w)) as [[visible|e] d'];
    simpl in *; [by apply IH | done].
Qed.

(** A loop keeps what each of its turns keeps. *)
Lemma for_each_keeps (P : display → Prop) js (body : Z → M ()) :
  (∀ j d, j ∈ js → P d → P (body j d).2) →
  ∀ d, P d → P (for_each js body d).2.
Proof.
  induction js as [|j js IH]; intros Hbody d HP; simpl; [done |].
  rewrite bind_unfold.
  pose proof (Hbody j d (list_elem_of_here _ _) HP) as Hj.
  destruct (body j d) as [[[]|e] d1]; simpl in *; [| done].
  apply IH; [| done]. intros j' d' Hj'. apply Hbody. by right.
Qed.

(** The grid whole and of the dimensions of [d0]. *)
Lemma box_set_keeps d0 x y w h c i j d :
  0 ≤ x → x + w ≤ dot_width d0 → 0 ≤ y → y + h ≤ dot_height d0 →
  i ∈ seqZ x w → j ∈ seqZ y h →
  grid_ok d ∧ dot_width d = dot_width d0 ∧ dot_height d = dot_height d0 →
  grid_ok (set i j c d).2 ∧
  dot_width (set i j c d).2 = dot_width d0 ∧
  dot_height (set i j c d).2 = dot_height d0.
Proof.
  intros Hx Hxw Hy Hyh Hi%elem_of_seqZ Hj%elem_of_seqZ (Hok & Hw & Hh).
  destruct (set_extends i j c d) as (a & E & _).
  split; [| split].
  - apply set_grid_ok; [done |]. unfold in_bounds. lia.
  - by rewrite (ext_width _ _ _ E).
  - by rewrite (ext_height _ _ _ E).
Qed.

End grid_facts.

(** X12.  On a display whose grid is whole ([data] has [dot_width *
    dot_height] entries, each holding a fill style), the grid is still
    whole after [clear], after a tick of [painter], after [draw] and after
    [print], whatever their arguments. *)
Theorem grid_ok_kept (d : display) :
  grid_ok d →
  grid_ok (clear d) ∧
  grid_ok (painter d) ∧
  (∀ x y shape o, grid_ok (draw x y shape o d).2) ∧
  (∀ x y text f o, grid_ok (w_display (print x y text f o d).2)).
Proof.
  intros Hok. split; [| split; [| split]].
  - destruct Hok as [Hlen Hcells]. split.
    + by rewrite clear_length.
    + intros k Hk. rewrite clear_cell. destruct (decide _); [eauto |].
      by apply Hcells.
  - destruct Hok as [Hlen Hcells].
    destruct (painter_keeps_grid_setup d) as (Hw & Hh).
    unfold grid_ok. rewrite painter_data, Hw, Hh. split; [done |].
    intros k Hk. unfold cell. rewrite painter_data. by apply Hcells.
  - intros x y shape o. by apply draw_rows_grid_ok.
  - intros x y text f o. unfold print.
    pose proof (print_loop_grid_ok y o text x 0 (mkWorld f [] d) Hok) as H.
    by destruct (print_loop y text o x 0 (mkWorld f [] d)) as [[p|e] w'].
Qed.

Lemma grid4_ok : grid_ok grid4.
Proof.
  unfold grid4. split.
  - by rewrite clear_length.
  - intros k Hk. rewrite clear_cell. simpl in *.
    rewrite decide_True; [eauto | lia].
Qed.

(** The 4 by 4 grid after printing ['A'] at the origin. *)
Lemma grid_ok_kept_witness :
  grid_ok (w_display
             (print 0 0 "A" font_A (mkOptions (str "white") false) grid4).2).
Proof.
  destruct (grid_ok_kept grid4 grid4_ok) as (_ & _ & _ & H). apply H.
Defined.

(** X13.  On a display whose grid is whole, the grid is still whole after
    [set] at a dot of the grid, and after [fill] and [rect] on a box lying
    within the grid, whatever the colour. *)
Theorem grid_ok_kept_inside (d : display) :
  grid_ok d →
  (∀ x y c, in_bounds d x y → grid_ok (set x y c d).2) ∧
  (∀ x y w h c,
     0 ≤ x → x + w ≤ dot_width d → 0 ≤ y → y + h ≤ dot_height d →
     grid_ok (fill x y w h c d).2 ∧ grid_ok (rect x y w h c d).2).
Proof.
  intros Hok. split.
  - intros x y c Hin. by apply set_grid_ok.
  - intros x y w h c Hx Hxw Hy Hyh.
    set (P := λ d1, grid_ok d1 ∧ dot_width d1 = dot_width d ∧
                    dot_height d1 = dot_height d).
    assert (HP : P d) by done.
    split.
    + apply (for_each_keeps P (seqZ x w)
               (λ i, for_each (seqZ y h) (λ j, set i j c))); [| done].
      intros i d1 Hi HP1.
      apply (for_each_keeps P (seqZ y h) (λ j, set i j c)); [| done].
      intros j d2 Hj HP2. by apply (box_set_keeps d x y w h).
    + apply (for_each_keeps P (seqZ x w)
               (λ i, for_each (seqZ y h) (λ j,
                  if (j =? y) || (j =? y + h - 1) || (i =? x)
                     || (i =? x + w - 1)
                  then set i j c else ret ()))); [| done].
      intros i d1 Hi HP1.
      apply (for_each_keeps P (seqZ y h) (λ j,
                  if (j =? y) || (j =? y + h - 1) || (i =? x)
                     || (i =? x + w - 1)
                  then set i j c else ret ())); [| done].
      intros j d2 Hj HP2.
      destruct (_ || _); [by apply (box_set_keeps d x y w h) | done].
Qed.

(** [set(3, 3, 'red')] on the 4 by 4 grid. *)
Lemma grid_ok_kept_inside_witness :
  grid_ok (set 3 3 (str "red") grid4).2.
Proof.
  destruct (grid_ok_kept_inside grid4 grid4_ok) as [H _]. apply H.
  unfold in_bounds; simpl; lia.
Defined.

(** ** [print]: the cursor and the font *)

Section print_more.

Context (y : Z) (o : print_options).

Lemma draw_width x shape d :
  dot_width (draw x y shape o d).2 = dot_width d.
Proof.
  destruct (draw_effects x y shape o d) as (a & E & _).
  apply (ext_width _ _ _ E).
Qed.

Lemma print_loop_cursor W text : ∀ currentX printed w,
  dot_width (w_display w) = W →
  Forall (λ st, step_x st ≤ W) (w_journal w) →
  Forall (λ st, step_x st ≤ W)
    (w_journal (print_loop y text o currentX printed w).2) ∧
  dot_width (w_display (print_loop y text o currentX printed w).2) = W.
Proof.
  induction text as [|c text IH]; intros currentX printed w HW Hall; simpl;
    [done |].
  destruct (currentX <=? dot_width (w_display w)) eqn:Hle; [| done].
  apply Z.leb_le in Hle. rewrite HW in Hle.
  destruct (font_glyphs (w_font w) !! key c) as [g|].
  - pose proof (draw_width currentX
                  (rows (if lacks_width g then updateFontData g else g))
                  (w_display w)) as Hw.
    destruct (draw currentX y _ o (w_display w)) as [[visible|e] d'];
      simpl in *; [| by split; [| congruence]].
    apply IH; simpl; [congruence |].
    apply Forall_app. split; [done |]. by apply Forall_singleton.
  - apply IH; simpl; [done |].
    apply Forall_app. split; [done |]. by apply Forall_singleton.
Qed.

End print_more.

(** X14.  [print] never skips or draws a character with the cursor beyond
    [dot_width]: every step of its journal found the cursor at a column no
    greater than [dot_width].  Started beyond it, [print] returns [false] at
    once, with the font, the display and the console untouched. *)
Theorem print_stops_at_edge (x y : Z) (text : string) (f : font)
    (o : print_options) (d : display) :
  Forall (λ st, step_x st ≤ dot_width d)
    (w_journal (print x y text f o d).2) ∧
  (dot_width d < x →
   print x y text f o d = (Normal false, mkWorld f [] d)).
Proof.
  split.
  - unfold print.
    destruct (print_loop_cursor y o (dot_width d) text x 0 (mkWorld f [] d))
      as [H _]; [done | by apply Forall_nil |].
    by destruct (print_loop y text o x 0 (mkWorld f [] d)) as [[p|e] w'].
  - intros Hx. unfold print. destruct text as [|c text]; simpl; [done |].
    assert ((x <=? dot_width d) = false) as -> by (apply Z.leb_gt; lia).
    done.
Qed.

(** [print(5, 0, 'A', ...)] on the 4 by 4 grid. *)
Lemma print_stops_at_edge_witness :
  print 5 0 "A" font_A (mkOptions (str "white") false) grid4
  = (Normal false, mkWorld font_A [] grid4).
Proof.
  destruct (print_stops_at_edge 5 0 "A" font_A
              (mkOptions (str "white") false) grid4) as [_ H].
  apply H. simpl. lia.
Defined.

(** X15.  [print] changes the font it is handed only by caching widths: the
    font it leaves has the same keys, under each key a glyph with the same
    rows, and the width [print] uses for that glyph is the same before and
    after. *)
Theorem print_keeps_glyphs (x y : Z) (text : string) (f : font)
    (o : print_options) (d : display) :
  same_glyphs (font_glyphs f)
    (font_glyphs (w_font (print x y text f o d).2)).
Proof.
  unfold print.
  destruct (print_loop_journal y o text x 0 (mkWorld f [] d) (font_glyphs f)
              (same_glyphs_refl _))
    as (new & _ & _ & _ & Hs & _).
  by destruct (print_loop y text o x 0 (mkWorld f [] d)) as [[p|e] w'].
Qed.

(** ** [updateFontData] and [updateFont] *)

Section font_more.

Lemma max_row_length_bound rs bits :
  RowArr bits ∈ rs → Z.of_nat (length bits) ≤ max_row_length rs.
Proof.
  induction rs as [|r rs IH]; [by inversion 1 |].
  intros [<-|Hin]%elem_of_cons; simpl.
  - lia.
  - specialize (IH Hin). destruct r; lia.
Qed.

Lemma max_row_length_reached rs :
  max_row_length rs = 0 ∨
  ∃ bits, RowArr bits ∈ rs ∧ Z.of_nat (length bits) = max_row_length rs.
Proof.
  induction rs as [|[bits|n] rs IH]; simpl; [by left | |].
  - destruct (Z.max_spec (Z.of_nat (length bits)) (max_row_length rs))
      as [[Hlt ->] | [Hle ->]].
    + destruct IH as [H0 | (bits' & Hin & Hlen)]; [by left |].
      right. exists bits'. split; [by right | done].
    + right. exists bits. split; [by left | done].
  - destruct IH as [H0 | (bits' & Hin & Hlen)]; [by left |].
    right. exists bits'. split; [by right | done].
Qed.

Lemma with_width_eq g :
  with_width g = mkGlyph (rows g) (Some (glyph_width g)).
Proof.
  unfold with_width, glyph_width. destruct (lacks_width g) eqn:Hl.
  - unfold updateFontData at 1. f_equal.
    change (width (updateFontData g) = Some (max_row_length (rows g))).
    apply updateFontData_width.
  - unfold lacks_width, width_of in *. destruct g as [rs [w|]]; done.
Qed.

Lemma updateFont_loop_hole indices : ∀ glyphs i,
  i ∈ indices → glyphs !! pretty i = None →
  (updateFont_loop indices glyphs).1 = Throw TypeError.
Proof.
  induction indices as [|i0 indices IH]; intros glyphs i Hi Hnone;
    [by inversion Hi |].
  cbn [updateFont_loop].
  destruct (glyphs !! pretty i0) as [g|] eqn:Hg; [| done].
  apply elem_of_cons in Hi as [-> | Hi]; [congruence |].
  apply (IH _ i Hi).
  destruct (lacks_width g); [| done].
  rewrite lookup_insert_ne; [done |]. intros Heq. congruence.
Qed.

End font_more.

(** X16.  [updateFontData] leaves the rows of a glyph as they are and sets
    its width, whatever it was, to the greatest length of a row given as an
    array: no such row is longer, and the width is either 0 or the length of
    one of them. *)
Theorem updateFontData_caches_max (g : glyph) :
  rows (updateFontData g) = rows g ∧
  ∃ m, width (updateFontData g) = Some m ∧
       (∀ bits, RowArr bits ∈ rows g → Z.of_nat (length bits) ≤ m) ∧
       (m = 0 ∨ ∃ bits, RowArr bits ∈ rows g ∧ Z.of_nat (length bits) = m).
Proof.
  split; [done |]. exists (max_row_length (rows g)).
  split; [apply updateFontData_width |]. split.
  - intros bits. apply max_row_length_bound.
  - apply max_row_length_reached.
Qed.

(** X17.  On a font that is an array of [n] glyphs (a numeric [length] and a
    glyph under each index below it), [updateFont] returns normally; each of
    those glyphs keeps its rows and ends with a width cached: the one it had
    if that was not 0, the greatest row length otherwise; entries under any
    other key are untouched. *)
Theorem updateFont_array_caches (f : font) (n : Z) :
  font_length f = Some n →
  (∀ i, 0 ≤ i < n → is_Some (font_glyphs f !! pretty i)) →
  ∃ f',
    updateFont f = (Normal (), f') ∧
    font_length f' = Some n ∧
    (∀ i, 0 ≤ i < n →
       ∃ g, font_glyphs f !! pretty i = Some g ∧
            font_glyphs f' !! pretty i
            = Some (mkGlyph (rows g) (Some (glyph_width g)))) ∧
    (∀ k, k ∉ (pretty <$> seqZ 0 n : list string) →
          font_glyphs f' !! k = font_glyphs f !! k).
Proof.
  intros Hn Hall. unfold updateFont. rewrite Hn.
  destruct (updateFont_loop_caches (seqZ 0 n) (font_glyphs f))
    as (glyphs' & -> & Hk).
  { intros i Hi%elem_of_seqZ. apply Hall. lia. }
  eexists. split; [done |]. split; [done |]. simpl. split.
  - intros i Hi. destruct (Hall i Hi) as [g Hg]. exists g. split; [done |].
    rewrite Hk, decide_True, Hg; [by rewrite <- with_width_eq |].
    apply list_elem_of_fmap. exists i. split; [done |].
    apply elem_of_seqZ. lia.
  - intros k Hnin. by rewrite Hk, decide_False.
Qed.

(** An array of two glyphs, the second with a width already cached. *)
Lemma updateFont_array_caches_witness :
  let f := mkFont (Some 2)
             {["0" := glyph_A; "1" := mkGlyph [RowArr [1]] (Some 7)]} in
  ∃ f',
    updateFont f = (Normal (), f') ∧
    font_length f' = Some 2 ∧
    (∀ i, 0 ≤ i < 2 →
       ∃ g, font_glyphs f !! pretty i = Some g ∧
            font_glyphs f' !! pretty i
            = Some (mkGlyph (rows g) (Some (glyph_width g)))) ∧
    (∀ k, k ∉ (pretty <$> seqZ 0 2 : list string) →
          font_glyphs f' !! k = font_glyphs f !! k).
Proof.
  intros f. apply (updateFont_array_caches f 2); [reflexivity |].
  intros i Hi.
  assert (i = 0 ∨ i = 1) as [-> | ->] by lia; vm_compute; eauto.
Defined.

(** X18.  On a font with a numeric [length] and no glyph under some index
    below it (an array with a hole), [updateFont] throws a [TypeError]. *)
Theorem updateFont_hole_throws (f : font) (n i : Z) :
  font_length f = Some n →
  0 ≤ i < n →
  font_glyphs f !! pretty i = None →
  (updateFont f).1 = Throw TypeError.
Proof.
  intros Hn Hi Hnone. unfold updateFont. rewrite Hn.
  pose proof (updateFont_loop_hole (seqZ 0 n) (font_glyphs f) i) as H.
  destruct (updateFont_loop (seqZ 0 n) (font_glyphs f)) as [r glyphs'].
  apply H; [apply elem_of_seqZ; lia | done].
Qed.

(** An array of length 2 with a glyph under index 1 only. *)
Lemma updateFont_hole_throws_witness :
  (updateFont (mkFont (Some 2) {["1" := glyph_A]})).1 = Throw TypeError.
Proof.
  apply (updateFont_hole_throws _ 2 0); [reflexivity | lia | by vm_compute].
Defined.

(** ** [set] followed by a tick *)

Section set_tick.

(** The column and row that [updateLed] computes from the flat index of a
    dot of the grid are the dot's own. *)
Lemma flat_column_row d x y :
  in_bounds d x y →
  Z.rem (y * dot_width d + x) (dot_width d) = x ∧
  (y * dot_width d + x) / dot_width d = y.
Proof.
  intros [Hx Hy]. split.
  - rewrite Z.rem_mod_nonneg by nia.
    rewrite Z.add_comm, Z.mod_add by lia. apply Z.mod_small. lia.
  - rewrite Z.add_comm, Z.div_add by lia.
    rewrite Z.div_small by lia. lia.
Qed.

End set_tick.

(** X19.  On a display with the flag down and nothing pending, [set] at a
    dot [(x, y)] of the grid with a valid colour standing for [s], followed
    by one tick of [painter], erases the square of that dot, at pixel
    [(x * dot_size, y * dot_size)], to the background, draws the dot there in
    the style [s], draws nothing else, and leaves the flag down and nothing
    pending. *)
Theorem set_then_tick (d : display) (x y : Z) (c : value) (s : string) :
  dirty d = false →
  dirtyIndicies d = [] →
  in_bounds d x y →
  resolves_to d c s →
  let d' := painter (set x y c d).2 in
  context d' =
    context d ++
    [SetFillStyle (Some (background d));
     FillRect (x * dot_size d) (y * dot_size d) (dot_size d) (dot_size d);
     SetFillStyle (Some s)] ++
    (if bool_decide (drawMode d = "circle")
     then [BeginPath; Arc (x * dot_size d) (y * dot_size d) (dot_size d); Fill]
     else [FillRect (x * dot_size d) (y * dot_size d)
             (dot_size d) (dot_size d)]) ∧
  dirty d' = false ∧
  dirtyIndicies d' = [].
Proof.
  intros Hd Hi Hin Hc d'. unfold d'.
  rewrite (set_stores d x y c s (resolve_color_valid d c s Hc)). simpl.
  destruct (flat_column_row d x y Hin) as [Hcol Hrow].
  unfold painter; simpl. rewrite Hd, Hi; simpl.
  unfold updateLed, cell, get, flat; simpl.
  rewrite lookup_insert_eq, Hcol, Hrow.
  destruct (bool_decide (drawMode d = "circle")); simpl;
    rewrite Hd; simpl; rewrite <- ?app_assoc; done.
Qed.

(** [set(1, 1, 'red')] and a tick on the 4 by 4 grid once it is clean. *)
Lemma set_then_tick_witness :
  let d := painter grid4 in
  let d' := painter (set 1 1 (str "red") d).2 in
  context d' =
    context d ++
    [SetFillStyle (Some (background d));
     FillRect (1 * dot_size d) (1 * dot_size d) (dot_size d) (dot_size d);
     SetFillStyle (Some "red")] ++
    (if bool_decide (drawMode d = "circle")
     then [BeginPath; Arc (1 * dot_size d) (1 * dot_size d) (dot_size d); Fill]
     else [FillRect (1 * dot_size d) (1 * dot_size d)
             (dot_size d) (dot_size d)]) ∧
  dirty d' = false ∧
  dirtyIndicies d' = [].
Proof.
  intros d.
  apply (set_then_tick d 1 1 (str "red") "red").
  - by vm_compute.
  - by vm_compute.
  - unfold in_bounds. by vm_compute.
  - apply resolves_string.
Defined.
